(** * The Physical Web presentation mechanism

    A shallow embedding of [public/js/physicalweb-presentationmechanism.js]:
    the three constructors [PhysicalWebRemoteController],
    [PhysicalWebDisplay] and [PhysicalWebPresentationMechanism], the browser
    objects they drive (promises, [XMLHttpRequest], [window.location], the
    console) and the properties of the adapter that follow from the code.

    Text.  A JavaScript string is represented by the bytes of its UTF-8
    encoding, as a [string] of the Standard Library.  On such strings
    [encodeURIComponent] escapes byte by byte, [+] is concatenation and
    [indexOf] with an ASCII pattern is a byte search.  A string with an
    unpaired surrogate has no UTF-8 encoding and hence no representation
    here; [encodeURIComponent] raises [URIError] on those, and [JsString]
    and [navigate_any] below say what [navigate] does with one. *)

From Stdlib Require Import String Ascii ZArith List Bool Lia.
From stdpp Require Import gmap strings.
Import ListNotations.
Local Open Scope string_scope.
Local Open Scope list_scope.

(** ** Strings *)

Module Text.

Definition is_char (c d : ascii) : bool := Ascii.eqb c d.

Definition in_range (lo hi : nat) (c : ascii) : bool :=
  Nat.leb lo (nat_of_ascii c) && Nat.leb (nat_of_ascii c) hi.

(** [uriAlpha], [DecimalDigit] and [uriMark] of ECMAScript: what
    [encodeURIComponent] leaves as it is. *)
Definition uriUnescaped (c : ascii) : bool :=
  in_range 65 90 c || in_range 97 122 c || in_range 48 57 c
  || existsb (is_char c) (list_ascii_of_string "-_.!~*'()").

Definition hex_digit (n : nat) : ascii :=
  nth n (list_ascii_of_string "0123456789ABCDEF") "0"%char.

(** The escape of one octet: a percent sign and two upper-case
    hexadecimal digits. *)
Definition escape (c : ascii) : string :=
  String "%" (String (hex_digit (nat_of_ascii c / 16))
             (String (hex_digit (nat_of_ascii c mod 16)) "")).

Definition encode_char (c : ascii) : string :=
  if uriUnescaped c then String c "" else escape c.

Fixpoint encodeURIComponent (s : string) : string :=
  match s with
  | "" => ""
  | String c r => encode_char c +:+ encodeURIComponent r
  end.

(** [String.prototype.indexOf]: the position of the first occurrence of
    [pat], or [-1]. *)
Fixpoint indexOf_from (pat s : string) (i : Z) : Z :=
  if String.prefix pat s then i
  else match s with
       | "" => (-1)%Z
       | String _ r => indexOf_from pat r (i + 1)
       end.

Definition indexOf (s pat : string) : Z := indexOf_from pat s 0.

(** [pat] occurs somewhere in [s]. *)
Definition occurs (pat s : string) : Prop :=
  exists a b, s = a +:+ pat +:+ b.

Fixpoint contains (pat s : string) : bool :=
  String.prefix pat s
  || match s with
     | "" => false
     | String _ r => contains pat r
     end.

End Text.

(** ** The [application/x-www-form-urlencoded] reader

    What the receiver of the beacon request does with the body (the parser
    of the URL Standard, on bytes): cut at [&], cut each piece at its first
    [=], turn [+] into a space, undo the percent escapes. *)

Module Form.

Definition hex_value (c : ascii) : option nat :=
  let n := nat_of_ascii c in
  if Text.in_range 48 57 c then Some (n - 48)
  else if Text.in_range 65 70 c then Some (n - 55)
  else if Text.in_range 97 102 c then Some (n - 87)
  else None.

Fixpoint percent_decode (s : string) : string :=
  match s with
  | "" => ""
  | String c r =>
      if Text.is_char c "%" then
        match r with
        | String h (String l r') =>
            match hex_value h, hex_value l with
            | Some a, Some b =>
                String (ascii_of_nat (16 * a + b)) (percent_decode r')
            | _, _ => String c (percent_decode r)
            end
        | _ => String c (percent_decode r)
        end
      else String c (percent_decode r)
  end.

Fixpoint plus_to_space (s : string) : string :=
  match s with
  | "" => ""
  | String c r =>
      String (if Text.is_char c "+" then " "%char else c) (plus_to_space r)
  end.

(** The pieces of [s] between the occurrences of [sep]. *)
Fixpoint split_on (sep : ascii) (s : string) : list string :=
  match s with
  | "" => [""]
  | String c r =>
      if Text.is_char c sep then "" :: split_on sep r
      else match split_on sep r with
           | h :: t => String c h :: t
           | [] => [String c ""]
           end
  end.

(** The part before the first [sep] and, when there is one, the part
    after it. *)
Fixpoint cut_at (sep : ascii) (s : string) : string * option string :=
  match s with
  | "" => ("", None)
  | String c r =>
      if Text.is_char c sep then ("", Some r)
      else let '(n, v) := cut_at sep r in (String c n, v)
  end.

Definition decode_component (s : string) : string :=
  percent_decode (plus_to_space s).

Definition parse_pair (piece : string) : string * string :=
  let '(n, v) := cut_at "=" piece in
  (decode_component n, decode_component (default "" v)).

Definition is_empty (s : string) : bool :=
  match s with "" => true | _ => false end.

Definition parse (body : string) : list (string * string) :=
  map parse_pair
    (List.filter (fun p => negb (is_empty p)) (split_on "&" body)).

End Form.

(** ** The browser: heap, promises, requests

    Objects live in one heap and are known by their reference, so that two
    evaluations of [new] never give the same object. *)

Abbreviation Ref := nat.

(** An exception value: [DOMException], [ReferenceError], ... with its
    [name] and [message]. *)
Record JsError := mkError { err_name : string; err_message : string }.

(** The [_DOMException(message, name)] constructor of the polyfill. *)
Definition _DOMException (message name : string) : JsError :=
  mkError name message.

Definition ReferenceError (message : string) : JsError :=
  mkError "ReferenceError" message.

Definition InvalidStateError : JsError :=
  mkError "InvalidStateError" "The object is in an invalid state.".

(** The event object handed to a handler, known by what [JSON.stringify]
    makes of it. *)
Record ProgressEvent := mkEvent { JSON_stringify : string }.

(** What a promise of this file is fulfilled with. *)
Inductive Value :=
| undefined
| Array (displays : list Ref).

Inductive PromiseState :=
| Pending
| Fulfilled (v : Value)
| Rejected (e : JsError).

(** The two function values the code stores in an [XMLHttpRequest], each
    closed over the [resolve] or [reject] of the promise under
    construction. *)
Inductive Handler :=
| navigate_onload (resolve : Ref)
| navigate_onerror (reject : Ref).

Definition handler_promise (h : Handler) : Ref :=
  match h with
  | navigate_onload p => p
  | navigate_onerror p => p
  end.

Inductive ReadyState := UNSENT | OPENED | LOADING | DONE.

Record XMLHttpRequest := mkXhr {
  readyState : ReadyState;
  status : Z;
  xhr_method : string;
  xhr_url : string;
  requestHeaders : list (string * string);
  onload : option Handler;
  onerror : option Handler
}.

(** A request as it leaves the browser. *)
Record Request := mkRequest {
  req_method : string;
  req_url : string;
  req_headers : list (string * string);
  req_body : string
}.

Inductive Object :=
| ObjPromise (st : PromiseState)
| ObjXhr (x : XMLHttpRequest)
| ObjDisplay (name : string)
| ObjRemoteController.

(** A function installed by the polyfill as [onincomingcontroller]. It is
    code from outside the module: a call of it is recorded, and what it does
    in turn is a later operation of the run. *)
Definition Callback := nat.

(** The page: what the module reads from its surroundings, the heap, and
    what the module has done so far to the network, to the console and to
    the callback.  [global_url] is the value of the global variable [url]
    as [url + "?p"] sees it, when the page has such a variable. *)
Record World := mkWorld {
  location_search : string;          (* window.location.search *)
  global_url : option string;        (* the global variable [url], if the page has one *)
  onincomingcontroller : option Callback;
  next_ref : Ref;
  heap : gmap nat Object;
  network : list (Ref * Request);    (* requests sent, oldest first, with their XMLHttpRequest *)
  console : list string;
  incoming : list (Callback * Ref)   (* calls of onincomingcontroller, oldest first *)
}.

Definition with_heap (f : gmap nat Object -> gmap nat Object) (w : World) : World :=
  mkWorld (location_search w) (global_url w) (onincomingcontroller w)
          (next_ref w) (f (heap w)) (network w) (console w) (incoming w).

Definition with_next_ref (n : Ref) (w : World) : World :=
  mkWorld (location_search w) (global_url w) (onincomingcontroller w)
          n (heap w) (network w) (console w) (incoming w).

Definition with_network (l : list (Ref * Request)) (w : World) : World :=
  mkWorld (location_search w) (global_url w) (onincomingcontroller w)
          (next_ref w) (heap w) l (console w) (incoming w).

Definition with_console (l : list string) (w : World) : World :=
  mkWorld (location_search w) (global_url w) (onincomingcontroller w)
          (next_ref w) (heap w) (network w) l (incoming w).

Definition with_incoming (l : list (Callback * Ref)) (w : World) : World :=
  mkWorld (location_search w) (global_url w) (onincomingcontroller w)
          (next_ref w) (heap w) (network w) (console w) l.

Definition with_onincomingcontroller (cb : option Callback) (w : World) : World :=
  mkWorld (location_search w) (global_url w) cb
          (next_ref w) (heap w) (network w) (console w) (incoming w).

(** *** Computations: a state and exception monad *)

Inductive Completion (A : Type) :=
| Normal (a : A)
| Throw (e : JsError).
Arguments Normal {A} a.
Arguments Throw {A} e.

Definition Js (A : Type) := World -> Completion A * World.

#[global] Instance Js_ret : MRet Js := fun A a w => (Normal a, w).

#[global] Instance Js_throw : MThrow JsError Js := fun A e w => (Throw e, w).

#[global] Instance Js_bind : MBind Js := fun A B k m w =>
  match m w with
  | (Normal a, w') => k a w'
  | (Throw e, w') => (Throw e, w')
  end.

Definition get {A} (f : World -> A) : Js A := fun w => (Normal (f w), w).

Definition modify (f : World -> World) : Js unit := fun w => (Normal tt, f w).

(** [new]: a reference never handed out before, bound to [o]. *)
Definition new_object (o : Object) : Js Ref :=
  r ← get next_ref;
  modify (fun w => with_next_ref (S r) (with_heap <[r := o]> w));;
  mret r.

Definition console_write (msg : string) : Js unit :=
  modify (fun w => with_console (console w ++ [msg]) w).

Definition try_catch {A} (m : Js A) (handler : JsError -> Js A) : Js A :=
  fun w =>
    match m w with
    | (Normal a, w') => (Normal a, w')
    | (Throw e, w') => handler e w'
    end.

(** *** Promises *)

Definition promise_state (w : World) (p : Ref) : option PromiseState :=
  match heap w !! p with
  | Some (ObjPromise st) => Some st
  | _ => None
  end.

(** The resolving functions of promise [p]: the first call settles it,
    later calls do nothing. *)
Definition settle (p : Ref) (st : PromiseState) : Js unit :=
  modify (fun w =>
    match heap w !! p with
    | Some (ObjPromise Pending) => with_heap <[p := ObjPromise st]> w
    | _ => w
    end).

Definition resolve (p : Ref) (v : Value) : Js unit := settle p (Fulfilled v).

Definition reject (p : Ref) (e : JsError) : Js unit := settle p (Rejected e).

(** [new Promise(executor)]: the executor runs at once, with the resolving
    functions of the new promise; an exception it raises rejects the
    promise. *)
Definition new_Promise (executor : Ref -> Js unit) : Js Ref :=
  p ← new_object (ObjPromise Pending);
  try_catch (executor p) (reject p);;
  mret p.

(** *** XMLHttpRequest *)

Definition new_XMLHttpRequest : Js Ref :=
  new_object (ObjXhr (mkXhr UNSENT 0 "" "" [] None None)).

Definition get_xhr (x : Ref) : Js XMLHttpRequest :=
  o ← get (fun w => heap w !! x);
  match o with
  | Some (ObjXhr xo) => mret xo
  | _ => mthrow (mkError "TypeError" "not an XMLHttpRequest")
  end.

Definition put_xhr (x : Ref) (xo : XMLHttpRequest) : Js unit :=
  modify (with_heap <[x := ObjXhr xo]>).

Definition xhr_open (x : Ref) (method url : string) : Js unit :=
  xo ← get_xhr x;
  put_xhr x (mkXhr OPENED (status xo) method url [] (onload xo) (onerror xo)).

Definition xhr_setRequestHeader (x : Ref) (name value : string) : Js unit :=
  xo ← get_xhr x;
  match readyState xo with
  | OPENED =>
      put_xhr x (mkXhr OPENED (status xo) (xhr_method xo) (xhr_url xo)
                       (requestHeaders xo ++ [(name, value)])
                       (onload xo) (onerror xo))
  | _ => mthrow InvalidStateError
  end.

Definition xhr_set_onload (x : Ref) (h : Handler) : Js unit :=
  xo ← get_xhr x;
  put_xhr x (mkXhr (readyState xo) (status xo) (xhr_method xo) (xhr_url xo)
                   (requestHeaders xo) (Some h) (onerror xo)).

Definition xhr_set_onerror (x : Ref) (h : Handler) : Js unit :=
  xo ← get_xhr x;
  put_xhr x (mkXhr (readyState xo) (status xo) (xhr_method xo) (xhr_url xo)
                   (requestHeaders xo) (onload xo) (Some h)).

(** [send] hands the request to the network and returns; the answer comes
    later, as an event. *)
Definition xhr_send (x : Ref) (body : string) : Js unit :=
  xo ← get_xhr x;
  match readyState xo with
  | OPENED =>
      modify (fun w =>
        with_network
          (network w ++ [(x, mkRequest (xhr_method xo) (xhr_url xo)
                                       (requestHeaders xo) body)]) w);;
      put_xhr x (mkXhr LOADING (status xo) (xhr_method xo) (xhr_url xo)
                       (requestHeaders xo) (onload xo) (onerror xo))
  | _ => mthrow InvalidStateError
  end.

(** How a request in flight ends: an answer with some status code ([load]),
    or a failure of the network ([error]). *)
Inductive Outcome :=
| load (code : Z)
| error.

(** The bodies of the two handlers of [navigate], applied to the event. *)
Definition call_handler (h : Handler) (e : ProgressEvent) : Js unit :=
  match h with
  | navigate_onload res => resolve res undefined
  | navigate_onerror rej =>
      reject rej (_DOMException
                    ("Unable to start Bluetooth beacon: " +:+ JSON_stringify e)
                    "OperationError")
  end.

Definition call_if_set (h : option Handler) (e : ProgressEvent) : Js unit :=
  match h with
  | Some f => call_handler f e
  | None => mret tt
  end.

(** The browser ends request [x] and fires the event [e] on it. Only a
    request in flight can end, and only once. *)
Definition complete (x : Ref) (how : Outcome) (e : ProgressEvent) : Js unit :=
  o ← get (fun w => heap w !! x);
  match o with
  | Some (ObjXhr xo) =>
      match readyState xo with
      | LOADING =>
          put_xhr x (mkXhr DONE (match how with load c => c | error => 0%Z end)
                           (xhr_method xo) (xhr_url xo) (requestHeaders xo)
                           (onload xo) (onerror xo));;
          match how with
          | load _ => call_if_set (onload xo) e
          | error => call_if_set (onerror xo) e
          end
      | _ => mret tt
      end
  | _ => mret tt
  end.

(** ** The module *)

Definition beacon_endpoint : string := "http://localhost:3000/api/beacon".

Definition no_data_channel : string :=
  "no possible " +:+ String "034" "native" +:+ String "034" " data channel with Physical Web".

Module PhysicalWebRemoteController.

Definition constructor : Js Ref := new_object ObjRemoteController.

Definition createDataChannel (this : Ref) : Js Ref :=
  new_Promise (fun _ => console_write no_data_channel).

End PhysicalWebRemoteController.

Module PhysicalWebDisplay.

Definition constructor (name : string) : Js Ref :=
  new_object (ObjDisplay name).

Definition navigate (this : Ref) (url : string) : Js Ref :=
  new_Promise (fun p =>
    xhr ← new_XMLHttpRequest;
    xhr_open xhr "POST" beacon_endpoint;;
    xhr_setRequestHeader xhr "Content-type" "application/x-www-form-urlencoded";;
    xhr_set_onload xhr (navigate_onload p);;
    xhr_send xhr ("action=start&url=" +:+ Text.encodeURIComponent (url +:+ "?p"));;
    xhr_set_onerror xhr (navigate_onerror p)).

Definition createDataChannel (this : Ref) : Js Ref :=
  new_Promise (fun _ => console_write no_data_channel).

(** [url] is not a variable of [terminate] nor of any scope around it:
    the name is looked up in the global object. *)
Definition free_variable_url : Js string :=
  g ← get global_url;
  match g with
  | Some v => mret v
  | None => mthrow (ReferenceError "url is not defined")
  end.

Definition terminate (this : Ref) : Js unit :=
  xhr ← new_XMLHttpRequest;
  xhr_open xhr "POST" beacon_endpoint;;
  xhr_setRequestHeader xhr "Content-type" "application/x-www-form-urlencoded";;
  url ← free_variable_url;
  xhr_send xhr ("action=stop&url=" +:+ Text.encodeURIComponent (url +:+ "?p")).

End PhysicalWebDisplay.

Module PhysicalWebPresentationMechanism.

Definition name : string := "Physical Web presentation mechanism".

Definition display_name : string :=
  "Broadcast the URL through a Physical Web beacon".

Definition getAvailableDisplays : Js Ref :=
  new_Promise (fun p =>
    d ← PhysicalWebDisplay.constructor display_name;
    resolve p (Array [d])).

Definition call_onincomingcontroller (f : Callback) (controller : Ref) : Js unit :=
  modify (fun w => with_incoming (incoming w ++ [(f, controller)]) w).

Definition monitorIncomingControllers : Js unit :=
  search ← get location_search;
  if (Text.indexOf search "?p" =? -1)%Z then
    console_write "not running in a receiving context created by Physical Web"
  else
    console_write "running in a receiving context created by Physical Web";;
    controller ← PhysicalWebRemoteController.constructor;
    cb ← get onincomingcontroller;
    match cb with
    | Some f => call_onincomingcontroller f controller
    | None => mret tt
    end.

End PhysicalWebPresentationMechanism.

(** ** navigate, on any JavaScript string

    The argument of [navigate] is whatever string the caller has: a
    well-formed one, known by its UTF-8 bytes, or one with an unpaired
    surrogate.  Of the latter only this much matters to the code: with
    [?p] appended it still has its unpaired surrogate, and
    [encodeURIComponent] raises [URIError] on it. *)

Inductive JsString :=
| well_formed (bytes : string)
| ill_formed.

Definition URIError (message : string) : JsError :=
  mkError "URIError" message.

(** [s + t] for a well-formed [t]. *)
Definition js_append (s : JsString) (t : string) : JsString :=
  match s with
  | well_formed b => well_formed (b +:+ t)
  | ill_formed => ill_formed
  end.

Definition encodeURIComponent_any (s : JsString) : Js string :=
  match s with
  | well_formed b => mret (Text.encodeURIComponent b)
  | ill_formed => mthrow (URIError "URI malformed")
  end.

(** [navigate] again, statement by statement, with the argument of [send]
    evaluated before the call. *)
Definition navigate_any (this : Ref) (url : JsString) : Js Ref :=
  new_Promise (fun p =>
    xhr ← new_XMLHttpRequest;
    xhr_open xhr "POST" beacon_endpoint;;
    xhr_setRequestHeader xhr "Content-type" "application/x-www-form-urlencoded";;
    xhr_set_onload xhr (navigate_onload p);;
    encoded ← encodeURIComponent_any (js_append url "?p");
    xhr_send xhr ("action=start&url=" +:+ encoded);;
    xhr_set_onerror xhr (navigate_onerror p)).

(** ** Runs

    What can happen to the page once the module is loaded: the polyfill
    calls a method or installs its callback, or the browser ends a request.
    The methods never read [this], so a call is given any reference as its
    receiver. *)

Inductive Op :=
| call_getAvailableDisplays
| call_monitorIncomingControllers
| set_onincomingcontroller (cb : option Callback)
| call_navigate (display : Ref) (url : string)
| call_createDataChannel (display : Ref)
| call_controller_createDataChannel (controller : Ref)
| call_terminate (display : Ref)
| request_ends (xhr : Ref) (how : Outcome) (e : ProgressEvent).

Definition after {A} (m : Js A) (w : World) : World := snd (m w).

Definition result {A} (m : Js A) (w : World) : Completion A := fst (m w).

Definition perform (o : Op) (w : World) : World :=
  match o with
  | call_getAvailableDisplays =>
      after PhysicalWebPresentationMechanism.getAvailableDisplays w
  | call_monitorIncomingControllers =>
      after PhysicalWebPresentationMechanism.monitorIncomingControllers w
  | set_onincomingcontroller cb => with_onincomingcontroller cb w
  | call_navigate d u => after (PhysicalWebDisplay.navigate d u) w
  | call_createDataChannel d => after (PhysicalWebDisplay.createDataChannel d) w
  | call_controller_createDataChannel c =>
      after (PhysicalWebRemoteController.createDataChannel c) w
  | call_terminate d => after (PhysicalWebDisplay.terminate d) w
  | request_ends x how e => after (complete x how e) w
  end.

Definition run (ops : list Op) (w : World) : World :=
  fold_left (fun w o => perform o w) ops w.

(** The page when the module has just been loaded, with its query string
    and its global variable [url], if it has one. *)
Definition loaded (search : string) (url : option string) : World :=
  mkWorld search url None 0 ∅ [] [] [].

Definition reachable (w : World) : Prop :=
  exists search url ops, w = run ops (loaded search url).




(** The request that [navigate] and [terminate] build. *)

Definition form_header : string * string :=
  ("Content-type", "application/x-www-form-urlencoded").

Definition start_request (u : string) : Request :=
  mkRequest "POST" beacon_endpoint [form_header]
    ("action=start&url=" +:+ Text.encodeURIComponent (u +:+ "?p")).

Definition stop_request (u : string) : Request :=
  mkRequest "POST" beacon_endpoint [form_header]
    ("action=stop&url=" +:+ Text.encodeURIComponent (u +:+ "?p")).

(** Header names are compared without regard to case. *)
Definition lower (c : ascii) : ascii :=
  if Text.in_range 65 90 c then ascii_of_nat (nat_of_ascii c + 32) else c.

Fixpoint lowercase (s : string) : string :=
  match s with
  | "" => ""
  | String c r => String (lower c) (lowercase r)
  end.

Fixpoint find_header (name : string) (hs : list (string * string)) : option string :=
  match hs with
  | [] => None
  | (k, v) :: r =>
      if String.eqb (lowercase k) (lowercase name) then Some v
      else find_header name r
  end.

Definition header (name : string) (r : Request) : option string :=
  find_header name (req_headers r).

(** * Vocabulary of the properties *)

(** The characters the reader gives a meaning to. *)
Definition special (c : ascii) : bool :=
  Text.is_char c "&" || Text.is_char c "=" || Text.is_char c "+".

(** A string without any of them. *)
Fixpoint plain (s : string) : bool :=
  match s with
  | "" => true
  | String c r => negb (special c) && plain r
  end.

(** The [XMLHttpRequest] of [navigate] once the method has returned, with
    its two handlers for promise [p]. *)
Definition sent_xhr (p : Ref) : XMLHttpRequest :=
  mkXhr LOADING 0 "POST" beacon_endpoint [form_header]
        (Some (navigate_onload p)) (Some (navigate_onerror p)).

(** The [XMLHttpRequest] of [terminate]: opened and left there when the
    lookup of [url] fails, sent without handlers when it succeeds. *)
Definition opened_xhr : XMLHttpRequest :=
  mkXhr OPENED 0 "POST" beacon_endpoint [form_header] None None.

Definition bare_xhr : XMLHttpRequest :=
  mkXhr LOADING 0 "POST" beacon_endpoint [form_header] None None.

(** What the handler [h] makes of its promise when it is called with [e]. *)
Definition handler_outcome (h : Handler) (e : ProgressEvent) : PromiseState :=
  match h with
  | navigate_onload _ => Fulfilled undefined
  | navigate_onerror _ =>
      Rejected (_DOMException
                  ("Unable to start Bluetooth beacon: " +:+ JSON_stringify e)
                  "OperationError")
  end.

(** The handler that the end [how] of a request calls. *)
Definition handler_for (how : Outcome) (xo : XMLHttpRequest) : option Handler :=
  match how with
  | load _ => onload xo
  | error => onerror xo
  end.

(** The request once it has ended. *)
Definition ended (how : Outcome) (xo : XMLHttpRequest) : XMLHttpRequest :=
  mkXhr DONE (match how with load c => c | error => 0%Z end)
        (xhr_method xo) (xhr_url xo) (requestHeaders xo) (onload xo) (onerror xo).

(** The heap after a call of a resolving function of [p]. *)
Definition settled_heap (p : Ref) (st : PromiseState) (h : gmap nat Object)
  : gmap nat Object :=
  match h !! p with
  | Some (ObjPromise Pending) => <[p := ObjPromise st]> h
  | _ => h
  end.

(** The heap after the call of the handler [f], if there is one. *)
Definition after_handler (f : option Handler) (e : ProgressEvent)
    (h : gmap nat Object) : gmap nat Object :=
  match f with
  | Some f => settled_heap (handler_promise f) (handler_outcome f e) h
  | None => h
  end.

(** [h] is one of the handlers of the request. *)
Definition has_handler (xo : XMLHttpRequest) (h : Handler) : Prop :=
  onload xo = Some h \/ onerror xo = Some h.

(** Every object has a reference below [next_ref]. *)
Definition bounded (w : World) : Prop :=
  forall r o, heap w !! r = Some o -> r < next_ref w.

(** No [XMLHttpRequest] has a handler for [p]. *)
Definition unhandled (p : Ref) (w : World) : Prop :=
  forall x xo h,
    heap w !! x = Some (ObjXhr xo) -> has_handler xo h -> handler_promise h <> p.

(** Handlers only know promises that exist. *)
Definition wf (w : World) : Prop :=
  bounded w /\ forall p, next_ref w <= p -> unhandled p w.

(** The operation is an end of request [x]. *)
Definition ends (x : Ref) (o : Op) : bool :=
  match o with
  | request_ends x' _ _ => Nat.eqb x' x
  | _ => false
  end.

(** A pending promise that no request knows. *)
Definition idle (p : Ref) (w : World) : Prop :=
  bounded w /\ heap w !! p = Some (ObjPromise Pending) /\ unhandled p w.

(** The promise [p] of a [navigate] whose request [x] is in flight. *)
Definition in_flight (p x : Ref) (w : World) : Prop :=
  bounded w /\ heap w !! p = Some (ObjPromise Pending) /\
  heap w !! x = Some (ObjXhr (sent_xhr p)) /\
  forall x' xo h, x' <> x -> heap w !! x' = Some (ObjXhr xo) ->
    has_handler xo h -> handler_promise h <> p.

(** The promise [p] has been settled, as [st]. *)
Definition settled (p : Ref) (st : PromiseState) (w : World) : Prop :=
  bounded w /\ heap w !! p = Some (ObjPromise st) /\ st <> Pending.

(** The first end of request [x] among [ops]. *)
Fixpoint first_end (x : Ref) (ops : list Op) : option (Outcome * ProgressEvent) :=
  match ops with
  | [] => None
  | request_ends x' how e :: r =>
      if Nat.eqb x' x then Some (how, e) else first_end x r
  | _ :: r => first_end x r
  end.

(** The error that the [onerror] handler of [navigate] makes of the
    event [e]. *)
Definition OperationError (e : ProgressEvent) : JsError :=
  _DOMException ("Unable to start Bluetooth beacon: " +:+ JSON_stringify e)
                "OperationError".

(** What becomes of the promise of a [navigate] whose request is [x]. *)
Definition fate (x : Ref) (ops : list Op) : PromiseState :=
  match first_end x ops with
  | None => Pending
  | Some (load _, _) => Fulfilled undefined
  | Some (error, e) => Rejected (OperationError e)
  end.

(** Every rejected promise carries an error named [OperationError]. *)
Definition rejections_named (w : World) : Prop :=
  forall p err, heap w !! p = Some (ObjPromise (Rejected err)) ->
    err_name err = "OperationError".

(** Objects that no operation changes: displays, controllers and settled
    promises. *)
Definition lasting (obj : Object) : Prop :=
  (forall xo, obj <> ObjXhr xo) /\ obj <> ObjPromise Pending.

(** Every list of displays that a promise holds has exactly one display,
    which bears the fixed name. *)
Definition single_display_lists (w : World) : Prop :=
  forall p ds, heap w !! p = Some (ObjPromise (Fulfilled (Array ds))) ->
    exists d, ds = [d]
      /\ heap w !! d = Some (ObjDisplay PhysicalWebPresentationMechanism.display_name).

(** The marker as the specification words it: [p] as the name of a query
    parameter, that is [?p] or [&p] somewhere in the query string. *)
Definition spec_marker (s : string) : Prop :=
  Text.occurs "?p" s \/ Text.occurs "&p" s.

(** [monitorIncomingControllers] calls the callback, once, with some
    controller. *)
Definition calls_back (w : World) : Prop :=
  exists f c,
    incoming (after PhysicalWebPresentationMechanism.monitorIncomingControllers w)
    = incoming w ++ [(f, c)].

(** What an operation puts on the network, on a page whose global
    variable [url] is [g]. *)
Definition sent_by (g : option string) (o : Op) : list Request :=
  match o with
  | call_navigate _ u => [start_request u]
  | call_terminate _ =>
      match g with
      | Some v => [stop_request v]
      | None => []
      end
  | _ => []
  end.



(** Every rejected promise carries the error that the [onerror] handler of
    [navigate] makes of some event or, when [ill] says that [navigate] was
    called with an ill-formed string, a [URIError]. *)
Definition rejections_known (ill : bool) (w : World) : Prop :=
  forall p err, heap w !! p = Some (ObjPromise (Rejected err)) ->
    (exists e, err = OperationError e)
    \/ (ill = true /\ err_name err = "URIError").

(** The controllers handed to the callback are below [next_ref] and no two
    of them are the same. *)
Definition controllers_distinct (w : World) : Prop :=
  (forall c, In c (map snd (incoming w)) -> c < next_ref w)
  /\ List.NoDup (map snd (incoming w)).

(** A promise that holds a list of displays holds the display made right
    after it. *)
Definition lists_own_display (w : World) : Prop :=
  forall p ds, heap w !! p = Some (ObjPromise (Fulfilled (Array ds))) ->
    ds = [S p].

(** * Properties *)

(** ** Escaping and reading back *)

Section Escapes.

Import Text Form.

Ltac each_char c := destruct c as [[] [] [] [] [] [] [] []].

Lemma append_cons c (r b : string) : String c r +:+ b = String c (r +:+ b).
Proof. reflexivity. Qed.

Lemma append_nil (b : string) : "" +:+ b = b.
Proof. reflexivity. Qed.

Lemma percent_decode_encode_char c rest :
  percent_decode (encode_char c +:+ rest) = String c (percent_decode rest).
Proof. each_char c; reflexivity. Qed.

Lemma percent_decode_encode s :
  percent_decode (encodeURIComponent s) = s.
Proof.
  induction s as [|c r IH]; [reflexivity|].
  cbn [encodeURIComponent]. rewrite percent_decode_encode_char. now rewrite IH.
Qed.

Lemma plain_app a b : plain (a +:+ b) = plain a && plain b.
Proof.
  induction a as [|c r IH]; [reflexivity|].
  rewrite append_cons. cbn [plain]. rewrite IH. now rewrite andb_assoc.
Qed.

Lemma plain_encode_char c : plain (encode_char c) = true.
Proof. each_char c; reflexivity. Qed.

Lemma plain_encode s : plain (encodeURIComponent s) = true.
Proof.
  induction s as [|c r IH]; [reflexivity|].
  cbn [encodeURIComponent]. now rewrite plain_app, plain_encode_char, IH.
Qed.

Lemma special_amp c : special c = false -> is_char c "&" = false.
Proof. unfold special. intros H. now destruct (is_char c "&"). Qed.

Lemma special_plus c : special c = false -> is_char c "+" = false.
Proof.
  unfold special. intros H.
  destruct (is_char c "&"), (is_char c "="), (is_char c "+");
    simpl in H; congruence.
Qed.

Lemma plain_cons c r :
  plain (String c r) = true -> special c = false /\ plain r = true.
Proof.
  cbn. intros H. apply andb_prop in H as [H1 H2].
  split; [now apply negb_true_iff|assumption].
Qed.

Lemma split_on_plain s : plain s = true -> split_on "&" s = [s].
Proof.
  induction s as [|c r IH]; [reflexivity|].
  intros H. apply plain_cons in H as [Hc Hr].
  cbn [split_on]. rewrite (special_amp _ Hc), (IH Hr). reflexivity.
Qed.

Lemma plus_to_space_plain s : plain s = true -> plus_to_space s = s.
Proof.
  induction s as [|c r IH]; [reflexivity|].
  intros H. apply plain_cons in H as [Hc Hr].
  cbn [plus_to_space]. rewrite (special_plus _ Hc), (IH Hr). reflexivity.
Qed.

Lemma decode_component_encode s :
  decode_component (encodeURIComponent s) = s.
Proof.
  unfold decode_component.
  rewrite plus_to_space_plain by apply plain_encode.
  apply percent_decode_encode.
Qed.

Ltac read_body s :=
  unfold parse;
  rewrite !append_cons, append_nil;
  cbn [split_on is_char Ascii.eqb Bool.eqb];
  rewrite (split_on_plain _ (plain_encode s));
  cbn [List.filter is_empty negb map parse_pair cut_at is_char Ascii.eqb
       Bool.eqb default id];
  rewrite decode_component_encode;
  reflexivity.

(** The body of a start request reads back as the two fields
    [action = start] and [url = s]. *)
Lemma parse_start s :
  parse ("action=start&url=" +:+ encodeURIComponent s)
  = [("action", "start"); ("url", s)].
Proof. read_body s. Qed.

Lemma parse_stop s :
  parse ("action=stop&url=" +:+ encodeURIComponent s)
  = [("action", "stop"); ("url", s)].
Proof. read_body s. Qed.

End Escapes.

Example encode_sample :
  Text.encodeURIComponent "http://a.b/c d?x=1&y?p"
  = "http%3A%2F%2Fa.b%2Fc%20d%3Fx%3D1%26y%3Fp".
Proof. reflexivity. Qed.

Example parse_sample :
  Form.parse "action=start&url=http%3A%2F%2Fa.b%2Fc%20d%3Fx%3D1%26y%3Fp"
  = [("action", "start"); ("url", "http://a.b/c d?x=1&y?p")].
Proof. reflexivity. Qed.

Example indexOf_sample :
  Text.indexOf "?x=1?p" "?p" = 4%Z /\ Text.indexOf "?x=1&p" "?p" = (-1)%Z.
Proof. split; reflexivity. Qed.

(** ** The methods, run on any page *)

Ltac js_unfold :=
  repeat progress unfold PhysicalWebDisplay.navigate, PhysicalWebDisplay.terminate,
    PhysicalWebDisplay.createDataChannel, PhysicalWebDisplay.constructor,
    PhysicalWebDisplay.free_variable_url,
    PhysicalWebRemoteController.createDataChannel,
    PhysicalWebRemoteController.constructor,
    PhysicalWebPresentationMechanism.getAvailableDisplays,
    PhysicalWebPresentationMechanism.monitorIncomingControllers,
    PhysicalWebPresentationMechanism.call_onincomingcontroller,
    complete, call_if_set, call_handler,
    new_Promise, new_XMLHttpRequest, new_object, try_catch,
    xhr_open, xhr_setRequestHeader, xhr_set_onload, xhr_set_onerror, xhr_send,
    get_xhr, put_xhr, console_write, resolve, reject, settle,
    get, modify, mbind, mret, mthrow, Js_bind, Js_ret, Js_throw,
    with_heap, with_next_ref, with_network, with_console, with_incoming.

Ltac js_run :=
  js_unfold; cbn;
  repeat (rewrite lookup_insert_eq; cbn);
  rewrite ?insert_insert_eq.

Lemma navigate_run this u w :
  PhysicalWebDisplay.navigate this u w =
  (Normal (next_ref w),
   mkWorld (location_search w) (global_url w) (onincomingcontroller w)
     (S (S (next_ref w)))
     (<[S (next_ref w) := ObjXhr (sent_xhr (next_ref w))]>
        (<[next_ref w := ObjPromise Pending]> (heap w)))
     (network w ++ [(S (next_ref w), start_request u)])
     (console w) (incoming w)).
Proof. js_run. reflexivity. Qed.

Lemma terminate_run_unbound this w :
  global_url w = None ->
  PhysicalWebDisplay.terminate this w =
  (Throw (ReferenceError "url is not defined"),
   mkWorld (location_search w) (global_url w) (onincomingcontroller w)
     (S (next_ref w))
     (<[next_ref w := ObjXhr opened_xhr]> (heap w))
     (network w) (console w) (incoming w)).
Proof. intros H. js_run. rewrite H. cbn. reflexivity. Qed.

Lemma terminate_run_bound this w g :
  global_url w = Some g ->
  PhysicalWebDisplay.terminate this w =
  (Normal tt,
   mkWorld (location_search w) (global_url w) (onincomingcontroller w)
     (S (next_ref w))
     (<[next_ref w := ObjXhr bare_xhr]> (heap w))
     (network w ++ [(next_ref w, stop_request g)])
     (console w) (incoming w)).
Proof. intros H. js_run. rewrite H. js_run. reflexivity. Qed.

Lemma display_createDataChannel_run this w :
  PhysicalWebDisplay.createDataChannel this w =
  (Normal (next_ref w),
   mkWorld (location_search w) (global_url w) (onincomingcontroller w)
     (S (next_ref w))
     (<[next_ref w := ObjPromise Pending]> (heap w))
     (network w) (console w ++ [no_data_channel]) (incoming w)).
Proof. js_run. reflexivity. Qed.

Lemma controller_createDataChannel_run this w :
  PhysicalWebRemoteController.createDataChannel this w =
  (Normal (next_ref w),
   mkWorld (location_search w) (global_url w) (onincomingcontroller w)
     (S (next_ref w))
     (<[next_ref w := ObjPromise Pending]> (heap w))
     (network w) (console w ++ [no_data_channel]) (incoming w)).
Proof. js_run. reflexivity. Qed.

Lemma getAvailableDisplays_run w :
  PhysicalWebPresentationMechanism.getAvailableDisplays w =
  (Normal (next_ref w),
   mkWorld (location_search w) (global_url w) (onincomingcontroller w)
     (S (S (next_ref w)))
     (<[S (next_ref w) :=
          ObjDisplay PhysicalWebPresentationMechanism.display_name]>
        (<[next_ref w := ObjPromise (Fulfilled (Array [S (next_ref w)]))]>
           (heap w)))
     (network w) (console w) (incoming w)).
Proof.
  js_run. rewrite lookup_insert_ne by lia. rewrite lookup_insert_eq.
  rewrite (insert_insert_ne _ (next_ref w) (S (next_ref w))) by lia.
  rewrite insert_insert_eq. reflexivity.
Qed.

Lemma monitor_run_absent w :
  Text.indexOf (location_search w) "?p" = (-1)%Z ->
  PhysicalWebPresentationMechanism.monitorIncomingControllers w =
  (Normal tt,
   with_console
     (console w ++ ["not running in a receiving context created by Physical Web"])
     w).
Proof. intros H. js_run. rewrite H. reflexivity. Qed.

Lemma monitor_run_present w :
  Text.indexOf (location_search w) "?p" <> (-1)%Z ->
  PhysicalWebPresentationMechanism.monitorIncomingControllers w =
  (Normal tt,
   mkWorld (location_search w) (global_url w) (onincomingcontroller w)
     (S (next_ref w))
     (<[next_ref w := ObjRemoteController]> (heap w))
     (network w)
     (console w ++ ["running in a receiving context created by Physical Web"])
     (match onincomingcontroller w with
      | Some f => incoming w ++ [(f, next_ref w)]
      | None => incoming w
      end)).
Proof.
  intros H. js_run. apply Z.eqb_neq in H. rewrite H.
  destruct (onincomingcontroller w); reflexivity.
Qed.

Lemma complete_run x how e w :
  complete x how e w =
  (Normal tt,
   match heap w !! x with
   | Some (ObjXhr xo) =>
       match readyState xo with
       | LOADING =>
           with_heap (fun h => after_handler (handler_for how xo) e
                                 (<[x := ObjXhr (ended how xo)]> h)) w
       | _ => w
       end
   | _ => w
   end).
Proof.
  js_unfold. cbn. destruct (heap w !! x) as [[| xo | |]|]; try reflexivity.
  destruct (readyState xo); try reflexivity.
  unfold after_handler, settled_heap, handler_for, ended. cbn.
  destruct how; cbn.
  - destruct (onload xo) as [[]|]; cbn; try reflexivity;
      destruct (_ !! _) as [[[]| | |]|]; reflexivity.
  - destruct (onerror xo) as [[]|]; cbn; try reflexivity;
      destruct (_ !! _) as [[[]| | |]|]; reflexivity.
Qed.

(** ** Invariants of the heap *)

Lemma lookup_settled_heap p st (h : gmap nat Object) r :
  settled_heap p st h !! r =
  if decide (r = p) then
    match h !! p with
    | Some (ObjPromise Pending) => Some (ObjPromise st)
    | o => o
    end
  else h !! r.
Proof.
  unfold settled_heap. case_decide as Hr; subst.
  - destruct (h !! p) as [[[]| | |]|] eqn:E; rewrite ?lookup_insert_eq; auto.
  - destruct (h !! p) as [[[]| | |]|] eqn:E; rewrite ?lookup_insert_ne; auto.
Qed.

Lemma settled_heap_is_Some p st (h : gmap nat Object) r :
  is_Some (settled_heap p st h !! r) <-> is_Some (h !! r).
Proof.
  rewrite lookup_settled_heap. case_decide as Hr; subst; [|reflexivity].
  destruct (h !! p) as [[[]| | |]|];
    first [reflexivity | split; intros _; eexists; reflexivity].
Qed.

Lemma settled_heap_xhr p st (h : gmap nat Object) r xo :
  settled_heap p st h !! r = Some (ObjXhr xo) <-> h !! r = Some (ObjXhr xo).
Proof.
  rewrite lookup_settled_heap. case_decide as Hr; subst; [|reflexivity].
  destruct (h !! p) as [[[]| | |]|]; split; congruence.
Qed.

Lemma after_handler_is_Some f e (h : gmap nat Object) r :
  is_Some (after_handler f e h !! r) <-> is_Some (h !! r).
Proof. destruct f; cbn; [apply settled_heap_is_Some|reflexivity]. Qed.

Lemma after_handler_xhr f e (h : gmap nat Object) r xo :
  after_handler f e h !! r = Some (ObjXhr xo) <-> h !! r = Some (ObjXhr xo).
Proof. destruct f; cbn; [apply settled_heap_xhr|reflexivity]. Qed.

(** The heap after one operation, read at a reference that existed
    before: only the end of a request changes anything there. *)
Lemma perform_old o w r :
  r < next_ref w ->
  heap (perform o w) !! r =
  match o with
  | request_ends x how e => heap (after (complete x how e) w) !! r
  | _ => heap w !! r
  end.
Proof.
  intros Hr. destruct o; cbn [perform]; unfold after; try reflexivity.
  - rewrite getAvailableDisplays_run. cbn. now rewrite !lookup_insert_ne by lia.
  - destruct (Z.eq_dec (Text.indexOf (location_search w) "?p") (-1)%Z) as [E|E].
    + now rewrite (monitor_run_absent _ E).
    + rewrite (monitor_run_present _ E). cbn. now rewrite lookup_insert_ne by lia.
  - rewrite navigate_run. cbn. now rewrite !lookup_insert_ne by lia.
  - rewrite display_createDataChannel_run. cbn. now rewrite lookup_insert_ne by lia.
  - rewrite controller_createDataChannel_run. cbn.
    now rewrite lookup_insert_ne by lia.
  - destruct (global_url w) as [g|] eqn:E.
    + rewrite (terminate_run_bound _ _ _ E). cbn. now rewrite lookup_insert_ne by lia.
    + rewrite (terminate_run_unbound _ _ E). cbn. now rewrite lookup_insert_ne by lia.
Qed.

Lemma next_ref_perform o w : next_ref w <= next_ref (perform o w).
Proof.
  destruct o; cbn [perform]; unfold after.
  - rewrite getAvailableDisplays_run. cbn. lia.
  - destruct (Z.eq_dec (Text.indexOf (location_search w) "?p") (-1)%Z) as [E|E].
    + rewrite (monitor_run_absent _ E). cbn. lia.
    + rewrite (monitor_run_present _ E). cbn. lia.
  - cbn. lia.
  - rewrite navigate_run. cbn. lia.
  - rewrite display_createDataChannel_run. cbn. lia.
  - rewrite controller_createDataChannel_run. cbn. lia.
  - destruct (global_url w) as [g|] eqn:E.
    + rewrite (terminate_run_bound _ _ _ E). cbn. lia.
    + rewrite (terminate_run_unbound _ _ E). cbn. lia.
  - rewrite complete_run. cbn.
    destruct (heap w !! xhr) as [[| xo | |]|]; try lia.
    destruct (readyState xo); cbn; lia.
Qed.

(** The heap after the end of a request has the objects it had. *)
Lemma complete_is_Some x how e w r :
  is_Some (heap (after (complete x how e) w) !! r) <-> is_Some (heap w !! r).
Proof.
  unfold after. rewrite complete_run. cbn.
  destruct (heap w !! x) as [[| xo | |]|] eqn:E; try reflexivity.
  destruct (readyState xo); try reflexivity.
  cbn. rewrite after_handler_is_Some.
  destruct (decide (r = x)) as [->|Hne].
  - rewrite lookup_insert_eq, E. split; intros _; eexists; reflexivity.
  - now rewrite lookup_insert_ne.
Qed.

(** Its requests keep their handlers. *)
Lemma complete_xhr x how e w r xo h :
  heap (after (complete x how e) w) !! r = Some (ObjXhr xo) ->
  has_handler xo h ->
  exists xo', heap w !! r = Some (ObjXhr xo') /\ has_handler xo' h.
Proof.
  unfold after. rewrite complete_run. cbn.
  destruct (heap w !! x) as [[| x0 | |]|] eqn:E; eauto.
  destruct (readyState x0); eauto.
  cbn. rewrite after_handler_xhr.
  destruct (decide (r = x)) as [->|Hne].
  - rewrite lookup_insert_eq. intros [= <-] Hh. rewrite E. eauto.
  - rewrite lookup_insert_ne by congruence. eauto.
Qed.

(** An object made by an operation: where it is and, for a request, which
    promise its handlers know. *)
Lemma perform_new o w r obj :
  bounded w -> next_ref w <= r ->
  heap (perform o w) !! r = Some obj ->
  r < next_ref (perform o w) /\
  forall xo h, obj = ObjXhr xo -> has_handler xo h ->
    handler_promise h = next_ref w.
Proof.
  intros Hb Hr.
  assert (Hnone : heap w !! r = None).
  { destruct (heap w !! r) eqn:E; [|reflexivity]. apply Hb in E. lia. }
  destruct o; cbn [perform]; unfold after.
  - rewrite getAvailableDisplays_run. cbn.
    rewrite lookup_insert_Some. intros [[<- <-]|[? H]]; [split; [lia|discriminate]|].
    apply lookup_insert_Some in H as [[<- <-]|[? H]]; [split; [lia|discriminate]|].
    congruence.
  - destruct (Z.eq_dec (Text.indexOf (location_search w) "?p") (-1)%Z) as [E|E].
    + rewrite (monitor_run_absent _ E). cbn. congruence.
    + rewrite (monitor_run_present _ E). cbn.
      rewrite lookup_insert_Some. intros [[<- <-]|[? H]]; [split; [lia|discriminate]|].
      congruence.
  - cbn. congruence.
  - rewrite navigate_run. cbn.
    rewrite lookup_insert_Some. intros [[<- <-]|[? H]].
    + split; [lia|]. intros xo h [= <-] [Hh|Hh]; cbn in Hh; now inversion Hh.
    + apply lookup_insert_Some in H as [[<- <-]|[? H]]; [split; [lia|discriminate]|].
      congruence.
  - rewrite display_createDataChannel_run. cbn.
    rewrite lookup_insert_Some. intros [[<- <-]|[? H]]; [split; [lia|discriminate]|].
    congruence.
  - rewrite controller_createDataChannel_run. cbn.
    rewrite lookup_insert_Some. intros [[<- <-]|[? H]]; [split; [lia|discriminate]|].
    congruence.
  - destruct (global_url w) as [g|] eqn:E.
    + rewrite (terminate_run_bound _ _ _ E). cbn.
      rewrite lookup_insert_Some. intros [[<- <-]|[? H]]; [|congruence].
      split; [lia|]. intros xo h [= <-] [Hh|Hh]; discriminate.
    + rewrite (terminate_run_unbound _ _ E). cbn.
      rewrite lookup_insert_Some. intros [[<- <-]|[? H]]; [|congruence].
      split; [lia|]. intros xo h [= <-] [Hh|Hh]; discriminate.
  - intros H. assert (is_Some (heap w !! r)) as [? ?]; [|congruence].
    apply (complete_is_Some xhr how e). unfold after. eauto.
Qed.

(** Where a handler found after an operation comes from: it was there
    before, or it belongs to a request the operation made and knows the
    promise the operation made. *)
Lemma perform_handler o w x xo h :
  bounded w ->
  heap (perform o w) !! x = Some (ObjXhr xo) -> has_handler xo h ->
  (exists xo', heap w !! x = Some (ObjXhr xo') /\ has_handler xo' h)
  \/ (next_ref w <= x /\ handler_promise h = next_ref w).
Proof.
  intros Hb Hx Hh. destruct (le_lt_dec (next_ref w) x) as [Hge|Hlt].
  - right. split; [assumption|].
    destruct (perform_new o w x _ Hb Hge Hx) as [_ Hnew]. eauto.
  - left. rewrite perform_old in Hx by assumption.
    destruct o; eauto using complete_xhr.
Qed.

Lemma bounded_perform o w : bounded w -> bounded (perform o w).
Proof.
  intros Hb r obj Hr. destruct (le_lt_dec (next_ref w) r) as [Hge|Hlt].
  - now destruct (perform_new o w r _ Hb Hge Hr).
  - pose proof (next_ref_perform o w). lia.
Qed.

Lemma unhandled_perform p o w :
  bounded w -> p <> next_ref w -> unhandled p w -> unhandled p (perform o w).
Proof.
  intros Hb Hp Hu x xo h Hx Hh.
  destruct (perform_handler o w x xo h Hb Hx Hh) as [(xo' & Hx' & Hh')|[_ ->]].
  - eauto.
  - congruence.
Qed.

Lemma wf_perform o w : wf w -> wf (perform o w).
Proof.
  intros [Hb Hu]. split; [now apply bounded_perform|].
  intros p Hp. pose proof (next_ref_perform o w).
  destruct (Nat.eq_dec p (next_ref w)) as [->|Hne].
  - intros x xo h Hx Hh.
    destruct (perform_handler o w x xo h Hb Hx Hh) as [(xo' & Hx' & Hh')|[Hge E]].
    + exact (Hu _ (Nat.le_refl _) _ _ _ Hx' Hh').
    + (* a handler made by [o] for a promise made by [o]: both are below
         the new [next_ref] *)
      apply (bounded_perform o w Hb) in Hx. lia.
  - apply unhandled_perform; auto. apply Hu. lia.
Qed.

Lemma wf_loaded search url : wf (loaded search url).
Proof.
  split.
  - intros r o. cbn. now rewrite lookup_empty.
  - intros p _ x xo h. cbn. now rewrite lookup_empty.
Qed.

Lemma run_app ops1 ops2 w : run (ops1 ++ ops2) w = run ops2 (run ops1 w).
Proof. unfold run. apply fold_left_app. Qed.

Lemma run_cons o ops w : run (o :: ops) w = run ops (perform o w).
Proof. reflexivity. Qed.

Lemma wf_run ops w : wf w -> wf (run ops w).
Proof.
  revert w. induction ops as [|o ops IH]; intros w Hw; [assumption|].
  rewrite run_cons. apply IH. now apply wf_perform.
Qed.

Lemma wf_reachable w : reachable w -> wf w.
Proof. intros (search & url & ops & ->). apply wf_run, wf_loaded. Qed.

(** What the end of a request does to a promise: nothing, unless the
    promise is pending and the request has a handler for it. *)
Lemma complete_promise x how e w p st :
  heap w !! p = Some (ObjPromise st) ->
  heap (after (complete x how e) w) !! p = Some (ObjPromise st)
  \/ (st = Pending /\ exists xo f,
        heap w !! x = Some (ObjXhr xo) /\ readyState xo = LOADING /\
        handler_for how xo = Some f /\ handler_promise f = p /\
        heap (after (complete x how e) w) !! p
        = Some (ObjPromise (handler_outcome f e))).
Proof.
  intros Hp. unfold after. rewrite complete_run. cbn.
  destruct (heap w !! x) as [[| xo | |]|] eqn:Ex; auto.
  destruct (readyState xo) eqn:Ers; auto. cbn.
  assert (Hne : x <> p) by congruence.
  destruct (handler_for how xo) as [f|] eqn:Ef; cbn.
  - rewrite lookup_settled_heap. case_decide as Hq.
    + subst p. rewrite lookup_insert_ne by assumption. rewrite Hp.
      destruct st; auto. right. split; [reflexivity|].
      exists xo, f. auto.
    + left. now rewrite lookup_insert_ne.
  - left. now rewrite lookup_insert_ne.
Qed.

(** What it does to another request: nothing. *)
Lemma complete_other x how e w x' :
  x' <> x ->
  forall xo, heap w !! x' = Some (ObjXhr xo) ->
  heap (after (complete x how e) w) !! x' = Some (ObjXhr xo).
Proof.
  intros Hne xo Hx'. unfold after. rewrite complete_run. cbn.
  destruct (heap w !! x) as [[| x0 | |]|] eqn:Ex; auto.
  destruct (readyState x0); auto. cbn.
  apply after_handler_xhr. now rewrite lookup_insert_ne.
Qed.

(** ** The life of a promise *)

Lemma promise_state_heap w p st :
  heap w !! p = Some (ObjPromise st) -> promise_state w p = Some st.
Proof. unfold promise_state. now intros ->. Qed.

Lemma old_promise w p st :
  bounded w -> heap w !! p = Some (ObjPromise st) -> p < next_ref w.
Proof. intros Hb. apply Hb. Qed.

Lemma idle_perform p o w : idle p w -> idle p (perform o w).
Proof.
  intros (Hb & Hp & Hu). pose proof (old_promise _ _ _ Hb Hp) as Hlt.
  split; [now apply bounded_perform|]. split.
  - rewrite perform_old by assumption. destruct o; try assumption.
    destruct (complete_promise xhr how e w p _ Hp)
      as [H|(_ & xo & f & Hx & _ & Hf & Hpf & _)]; [assumption|].
    exfalso. apply (Hu xhr xo f Hx); [|assumption].
    destruct how; [left|right]; assumption.
  - apply unhandled_perform; auto. lia.
Qed.

Lemma idle_run p ops w : idle p w -> idle p (run ops w).
Proof.
  revert w. induction ops as [|o ops IH]; intros w Hw; [assumption|].
  rewrite run_cons. apply IH. now apply idle_perform.
Qed.

Lemma settled_perform p st o w : settled p st w -> settled p st (perform o w).
Proof.
  intros (Hb & Hp & Hst). pose proof (old_promise _ _ _ Hb Hp) as Hlt.
  split; [now apply bounded_perform|]. split; [|assumption].
  rewrite perform_old by assumption. destruct o; try assumption.
  destruct (complete_promise xhr how e w p _ Hp) as [H|[H _]];
    [assumption|contradiction].
Qed.

Lemma settled_run p st ops w : settled p st w -> settled p st (run ops w).
Proof.
  revert w. induction ops as [|o ops IH]; intros w Hw; [assumption|].
  rewrite run_cons. apply IH. now apply settled_perform.
Qed.

Lemma in_flight_perform p x o w :
  ends x o = false -> in_flight p x w -> in_flight p x (perform o w).
Proof.
  intros Ho (Hb & Hp & Hx & Hu).
  pose proof (old_promise _ _ _ Hb Hp) as Hlt.
  assert (Hxlt : x < next_ref w) by (eapply Hb; eassumption).
  split; [now apply bounded_perform|]. split; [|split].
  - rewrite perform_old by assumption. destruct o; try assumption.
    cbn in Ho. apply Nat.eqb_neq in Ho.
    destruct (complete_promise xhr how e w p _ Hp)
      as [H|(_ & xo & f & Hxo & _ & Hf & Hpf & _)]; [assumption|].
    exfalso. apply (Hu xhr xo f Ho Hxo); [|assumption].
    destruct how; [left|right]; assumption.
  - rewrite perform_old by assumption. destruct o; try assumption.
    cbn in Ho. apply Nat.eqb_neq in Ho.
    apply complete_other; [congruence|assumption].
  - intros x' xo h Hne Hx' Hh.
    destruct (perform_handler o w x' xo h Hb Hx' Hh) as [(xo' & Hxo' & Hh')|[_ ->]].
    + eauto.
    + lia.
Qed.

Lemma in_flight_ends p x how e w :
  in_flight p x w ->
  settled p (fate x [request_ends x how e]) (perform (request_ends x how e) w).
Proof.
  intros (Hb & Hp & Hx & Hu).
  split; [now apply bounded_perform|].
  unfold fate. cbn [first_end]. rewrite Nat.eqb_refl.
  cbn [perform]. unfold after. rewrite complete_run, Hx. cbn.
  assert (Hne : x <> p) by congruence.
  unfold handler_for, sent_xhr; cbn.
  destruct how; cbn; rewrite lookup_settled_heap, decide_True by reflexivity;
    unfold settled_heap; rewrite lookup_insert_ne by assumption; rewrite Hp;
    cbn; split; [reflexivity|discriminate|reflexivity|discriminate].
Qed.

Lemma fate_cons_other x o ops : ends x o = false -> fate x (o :: ops) = fate x ops.
Proof.
  unfold fate. destruct o; cbn; try reflexivity. now intros ->.
Qed.

Lemma fate_cons_end x how e ops :
  fate x (request_ends x how e :: ops) = fate x [request_ends x how e].
Proof. unfold fate. cbn. now rewrite Nat.eqb_refl. Qed.

Lemma ends_true x o : ends x o = true -> exists how e, o = request_ends x how e.
Proof.
  destruct o; cbn; try discriminate. intros H. apply Nat.eqb_eq in H as ->. eauto.
Qed.

(** The promise of a request in flight follows the first end of the
    request, whatever else happens. *)
Lemma in_flight_fate p x ops w :
  in_flight p x w -> promise_state (run ops w) p = Some (fate x ops).
Proof.
  revert w. induction ops as [|o ops IH]; intros w Hw.
  - destruct Hw as (_ & Hp & _). now apply promise_state_heap.
  - rewrite run_cons. destruct (ends x o) eqn:Ho.
    + apply ends_true in Ho as (how & e & ->). rewrite fate_cons_end.
      apply in_flight_ends with (how := how) (e := e) in Hw.
      apply (settled_run _ _ ops) in Hw as (_ & Hp & _).
      now apply promise_state_heap.
    + rewrite (fate_cons_other _ _ _ Ho). apply IH.
      now apply in_flight_perform.
Qed.

(** [navigate] on a well-formed page leaves its promise and its request in
    flight. *)
Lemma navigate_in_flight this u w :
  wf w ->
  in_flight (next_ref w) (S (next_ref w)) (after (PhysicalWebDisplay.navigate this u) w).
Proof.
  intros [Hb Hu]. unfold after. rewrite navigate_run. cbn.
  split; [|split; [|split]].
  - intros r o. cbn. rewrite !lookup_insert_Some.
    intros [[<- _]|[_ [[<- _]|[_ H]]]]; try lia. apply Hb in H. lia.
  - cbn. rewrite lookup_insert_ne by lia. apply lookup_insert_eq.
  - cbn. apply lookup_insert_eq.
  - cbn. intros x' xo h Hne. rewrite lookup_insert_ne by congruence.
    rewrite lookup_insert_Some. intros [[_ [=]]|[_ H]].
    apply (Hu (next_ref w) (Nat.le_refl _) _ _ _ H).
Qed.

(** A promise made by [createDataChannel] on a well-formed page is idle. *)
Lemma fresh_pending_idle w :
  wf w ->
  idle (next_ref w)
    (mkWorld (location_search w) (global_url w) (onincomingcontroller w)
       (S (next_ref w)) (<[next_ref w := ObjPromise Pending]> (heap w))
       (network w) (console w ++ [no_data_channel]) (incoming w)).
Proof.
  intros [Hb Hu]. split; [|split].
  - intros r o. cbn. rewrite lookup_insert_Some.
    intros [[<- _]|[_ H]]; [lia|]. apply Hb in H. lia.
  - cbn. apply lookup_insert_eq.
  - intros x xo h. cbn. rewrite lookup_insert_Some. intros [[_ [=]]|[_ H]].
    apply (Hu (next_ref w) (Nat.le_refl _) _ _ _ H).
Qed.

(** ** Searching a string *)

Section Search.

Import Text.

Lemma prefix_occurs p s :
  String.prefix p s = true <-> exists b, s = p +:+ b.
Proof.
  revert s. induction p as [|a p IH]; intros s.
  - split; [intros _; now exists s|intros _; now destruct s].
  - destruct s as [|b s]; cbn [String.prefix].
    + split; [discriminate|]. intros [t Ht]. discriminate.
    + destruct (ascii_dec a b) as [->|Hne].
      * rewrite IH. split; intros [t Ht]; exists t.
        -- now rewrite Ht.
        -- now inversion Ht.
      * split; [discriminate|]. intros [t Ht]. inversion Ht. congruence.
Qed.

Lemma contains_occurs pat s : contains pat s = true <-> occurs pat s.
Proof.
  unfold occurs. induction s as [|c s IH].
  - cbn [contains]. rewrite orb_false_r, prefix_occurs. split.
    + intros [b Hb]. now exists "", b.
    + intros (a & b & H). destruct a; [now exists b|discriminate].
  - cbn [contains]. rewrite orb_true_iff, prefix_occurs, IH. split.
    + intros [[b Hb]|(a & b & H)].
      * now exists "", b.
      * exists (String c a), b. now rewrite H.
    + intros (a & b & H). destruct a as [|c' a].
      * left. now exists b.
      * right. exists a, b. now inversion H.
Qed.

Lemma indexOf_from_spec pat s i :
  (0 <= i)%Z ->
  (indexOf_from pat s i = (-1)%Z /\ contains pat s = false)
  \/ ((i <= indexOf_from pat s i)%Z /\ contains pat s = true).
Proof.
  revert i. induction s as [|c s IH]; intros i Hi; cbn [indexOf_from contains].
  - destruct (String.prefix pat ""); [right|left]; split; auto; lia.
  - destruct (String.prefix pat (String c s)).
    + right. split; [lia|reflexivity].
    + cbn [orb]. destruct (IH (i + 1)%Z) as [[H1 H2]|[H1 H2]]; [lia| |].
      * left. now split.
      * right. split; [lia|assumption].
Qed.

(** [indexOf] answers [-1] exactly when the pattern does not occur. *)
Lemma indexOf_none s pat : indexOf s pat = (-1)%Z <-> ~ occurs pat s.
Proof.
  rewrite <- contains_occurs. unfold indexOf.
  destruct (indexOf_from_spec pat s 0) as [[H1 H2]|[H1 H2]]; [lia| |].
  - rewrite H1, H2. split; [discriminate|reflexivity].
  - rewrite H2. split; [lia|congruence].
Qed.

Lemma indexOf_prefix pat rest : indexOf (pat +:+ rest) pat = 0%Z.
Proof.
  unfold indexOf.
  assert (H : String.prefix pat (pat +:+ rest) = true).
  { apply prefix_occurs. now exists rest. }
  destruct (pat +:+ rest); cbn [indexOf_from]; now rewrite H.
Qed.

End Search.

(** ** More on the end of a request *)

(** An object found after the end of a request was there before; it is
    unchanged, or it is the request, now done, or it was a pending promise
    and a handler settled it. *)
Lemma complete_inv x how e w r obj' :
  heap (after (complete x how e) w) !! r = Some obj' ->
  exists obj, heap w !! r = Some obj /\
    (obj' = obj
     \/ (exists xo, obj = ObjXhr xo /\ obj' = ObjXhr (ended how xo))
     \/ (obj = ObjPromise Pending /\ exists f, obj' = ObjPromise (handler_outcome f e))).
Proof.
  unfold after. rewrite complete_run. cbn.
  destruct (heap w !! x) as [[| xo | |]|] eqn:Ex; eauto.
  destruct (readyState xo); eauto. cbn.
  assert (Hins : forall o, <[x := ObjXhr (ended how xo)]> (heap w) !! r = Some o ->
            exists obj, heap w !! r = Some obj /\
              (o = obj \/ (exists xo, obj = ObjXhr xo /\ o = ObjXhr (ended how xo)))).
  { intros o. rewrite lookup_insert_Some. intros [[<- <-]|[_ H]]; eauto 6. }
  destruct (handler_for how xo) as [f|]; cbn.
  - rewrite lookup_settled_heap. case_decide as Hq.
    + subst r. destruct (_ !! handler_promise f) as [o|] eqn:Eo.
      * destruct (Hins _ eq_refl) as (obj & Hobj & Hcase).
        destruct o as [[]| | |]; intros [= <-]; exists obj; split; auto;
          destruct Hcase as [<-|(? & ? & ?)]; eauto 6; discriminate.
      * discriminate.
    + intros H. destruct (Hins _ H) as (obj & Hobj & [<-|?]); eauto 6.
  - intros H. destruct (Hins _ H) as (obj & Hobj & [<-|?]); eauto 6.
Qed.

(** Displays, controllers and settled promises are out of its reach. *)
Lemma complete_keeps x how e w r obj :
  heap w !! r = Some obj ->
  (forall xo, obj <> ObjXhr xo) -> obj <> ObjPromise Pending ->
  heap (after (complete x how e) w) !! r = Some obj.
Proof.
  intros Hr Hx Hp. unfold after. rewrite complete_run. cbn.
  destruct (heap w !! x) as [[| xo | |]|] eqn:Ex; auto.
  destruct (readyState xo); auto. cbn.
  assert (Hins : <[x := ObjXhr (ended how xo)]> (heap w) !! r = Some obj).
  { rewrite lookup_insert_ne; [assumption|]. intros ->. rewrite Ex in Hr.
    inversion Hr. subst. now apply (Hx xo). }
  destruct (handler_for how xo) as [f|]; cbn; [|assumption].
  rewrite lookup_settled_heap. case_decide as Hq; [|assumption].
  subst r. rewrite Hins. destruct obj as [[]| | |]; congruence.
Qed.

(** ** The page around the module *)

Lemma environment_perform o w :
  location_search (perform o w) = location_search w
  /\ global_url (perform o w) = global_url w.
Proof.
  destruct o; cbn [perform]; unfold after.
  - now rewrite getAvailableDisplays_run.
  - destruct (Z.eq_dec (Text.indexOf (location_search w) "?p") (-1)%Z) as [E|E].
    + now rewrite (monitor_run_absent _ E).
    + now rewrite (monitor_run_present _ E).
  - now cbn.
  - now rewrite navigate_run.
  - now rewrite display_createDataChannel_run.
  - now rewrite controller_createDataChannel_run.
  - destruct (global_url w) as [g|] eqn:E.
    + rewrite (terminate_run_bound _ _ _ E). cbn. auto.
    + rewrite (terminate_run_unbound _ _ E). cbn. auto.
  - rewrite complete_run. cbn.
    destruct (heap w !! xhr) as [[| xo | |]|]; auto.
    destruct (readyState xo); auto.
Qed.

Lemma environment_run ops w :
  location_search (run ops w) = location_search w
  /\ global_url (run ops w) = global_url w.
Proof.
  revert w. induction ops as [|o ops IH]; intros w; [now split|].
  rewrite run_cons. destruct (IH (perform o w)) as [-> ->].
  apply environment_perform.
Qed.

(** What each operation sends: [navigate] one start request, [terminate]
    one stop request when the page has a global variable [url], every other
    operation, the end of a request included, nothing. *)
Lemma network_perform o w :
  network (perform o w) =
  network w ++
  match o with
  | call_navigate _ u => [(S (next_ref w), start_request u)]
  | call_terminate _ =>
      match global_url w with
      | Some g => [(next_ref w, stop_request g)]
      | None => []
      end
  | _ => []
  end.
Proof.
  destruct o; cbn [perform]; unfold after.
  - rewrite getAvailableDisplays_run. cbn. now rewrite app_nil_r.
  - destruct (Z.eq_dec (Text.indexOf (location_search w) "?p") (-1)%Z) as [E|E].
    + rewrite (monitor_run_absent _ E). cbn. now rewrite app_nil_r.
    + rewrite (monitor_run_present _ E). cbn. now rewrite app_nil_r.
  - cbn. now rewrite app_nil_r.
  - now rewrite navigate_run.
  - rewrite display_createDataChannel_run. cbn. now rewrite app_nil_r.
  - rewrite controller_createDataChannel_run. cbn. now rewrite app_nil_r.
  - destruct (global_url w) as [g|] eqn:E.
    + now rewrite (terminate_run_bound _ _ _ E).
    + rewrite (terminate_run_unbound _ _ E). cbn. now rewrite app_nil_r.
  - rewrite complete_run. cbn. rewrite app_nil_r.
    destruct (heap w !! xhr) as [[| xo | |]|]; auto.
    destruct (readyState xo); auto.
Qed.

(** ** navigate *)

(** C3: for every URL [u] and on every page, [navigate(u)] sends exactly
    one request: a POST to http://localhost:3000/api/beacon with content
    type application/x-www-form-urlencoded, whose body reads back as
    [action = start] and [url = u + "?p"]. *)
Theorem navigate_sends_start_request (w : World) (this : Ref) (u : string) :
  exists x req,
    network (after (PhysicalWebDisplay.navigate this u) w) = network w ++ [(x, req)]
    /\ req_method req = "POST"
    /\ req_url req = "http://localhost:3000/api/beacon"
    /\ header "Content-Type" req = Some "application/x-www-form-urlencoded"
    /\ Form.parse (req_body req) = [("action", "start"); ("url", u +:+ "?p")].
Proof.
  exists (S (next_ref w)), (start_request u).
  unfold after. rewrite navigate_run. cbn [snd network].
  repeat split. apply parse_start.
Qed.

(** C10: two calls of [navigate] with the same URL, on any two pages and
    any two displays, send the same request: same method (POST), same
    endpoint, same headers, same body. *)
Theorem navigate_request_deterministic
    (w1 w2 : World) (d1 d2 : Ref) (u1 u2 : string) :
  u1 = u2 ->
  exists x1 x2 req,
    network (after (PhysicalWebDisplay.navigate d1 u1) w1) = network w1 ++ [(x1, req)]
    /\ network (after (PhysicalWebDisplay.navigate d2 u2) w2) = network w2 ++ [(x2, req)]
    /\ req_method req = "POST"
    /\ req_url req = "http://localhost:3000/api/beacon"
    /\ req_headers req = [("Content-type", "application/x-www-form-urlencoded")]
    /\ req_body req = "action=start&url=" +:+ Text.encodeURIComponent (u1 +:+ "?p").
Proof.
  intros <-. exists (S (next_ref w1)), (S (next_ref w2)), (start_request u1).
  unfold after. rewrite !navigate_run. cbn [snd network]. repeat split.
Qed.

Lemma navigate_request_deterministic_witness :
  exists x1 x2 req,
    network (after (PhysicalWebDisplay.navigate 0 "http://a.example/") (loaded "" None))
    = network (loaded "" None) ++ [(x1, req)]
    /\ network (after (PhysicalWebDisplay.navigate 7 "http://a.example/")
                  (run [call_getAvailableDisplays] (loaded "?p" (Some "g"))))
       = network (run [call_getAvailableDisplays] (loaded "?p" (Some "g"))) ++ [(x2, req)]
    /\ req_method req = "POST"
    /\ req_url req = "http://localhost:3000/api/beacon"
    /\ req_headers req = [("Content-type", "application/x-www-form-urlencoded")]
    /\ req_body req
       = "action=start&url=" +:+ Text.encodeURIComponent ("http://a.example/" +:+ "?p").
Proof.
  apply (navigate_request_deterministic
           (loaded "" None)
           (run [call_getAvailableDisplays] (loaded "?p" (Some "g")))
           0 7 "http://a.example/" "http://a.example/").
  reflexivity.
Defined.

(** ** terminate *)

(** C1: on a page that has no global variable [url], [terminate] after
    [navigate(u)] raises a [ReferenceError] and sends nothing: the only
    request on the network is still the start request of [navigate]. The
    [url] that [terminate] names is not the argument of [navigate]. *)
Theorem terminate_after_navigate_sends_nothing
    (search : string) (before : list Op) (this : Ref) (u : string) :
  let w := run before (loaded search None) in
  let w1 := after (PhysicalWebDisplay.navigate this u) w in
  result (PhysicalWebDisplay.terminate this) w1
  = Throw (ReferenceError "url is not defined")
  /\ network (after (PhysicalWebDisplay.terminate this) w1) = network w1
  /\ network w1 = network w ++ [(S (next_ref w), start_request u)].
Proof.
  intros w w1.
  assert (Hg : global_url w1 = None).
  { unfold w1, after. rewrite navigate_run. cbn.
    destruct (environment_run before (loaded search None)) as [_ H]. exact H. }
  unfold result, after. rewrite (terminate_run_unbound _ _ Hg). cbn.
  split; [reflexivity|]. split; [reflexivity|].
  unfold w1, after. now rewrite navigate_run.
Qed.

Example terminate_on_a_plain_page :
  let w1 := run [call_navigate 0 "http://a.example/"] (loaded "" None) in
  result (PhysicalWebDisplay.terminate 0) w1
  = Throw (mkError "ReferenceError" "url is not defined")
  /\ map snd (network (after (PhysicalWebDisplay.terminate 0) w1))
     = [mkRequest "POST" "http://localhost:3000/api/beacon"
          [("Content-type", "application/x-www-form-urlencoded")]
          "action=start&url=http%3A%2F%2Fa.example%2F%3Fp"].
Proof. split; reflexivity. Qed.

(** When the page does have a global variable [url], with value [g],
    [terminate] sends a stop request for [g + "?p"], whatever was
    navigated to. *)
Lemma terminate_sends_global_url this w g :
  global_url w = Some g ->
  result (PhysicalWebDisplay.terminate this) w = Normal tt
  /\ exists x req,
       network (after (PhysicalWebDisplay.terminate this) w) = network w ++ [(x, req)]
       /\ Form.parse (req_body req) = [("action", "stop"); ("url", g +:+ "?p")].
Proof.
  intros Hg. unfold result, after. rewrite (terminate_run_bound _ _ _ Hg). cbn.
  split; [reflexivity|]. exists (next_ref w), (stop_request g).
  split; [reflexivity|]. apply parse_stop.
Qed.

(** C5: [OperationError] is not the only kind of error that comes out of
    the module. On a page without a global variable [url], [terminate]
    completes with an error whose kind is [ReferenceError]. *)
Theorem terminate_raises_ReferenceError
    (search : string) (before : list Op) (this : Ref) :
  exists e,
    result (PhysicalWebDisplay.terminate this) (run before (loaded search None))
    = Throw e
    /\ err_name e = "ReferenceError"
    /\ err_name e <> "OperationError".
Proof.
  exists (ReferenceError "url is not defined").
  assert (Hg : global_url (run before (loaded search None)) = None).
  { now destruct (environment_run before (loaded search None)) as [_ H]. }
  unfold result. rewrite (terminate_run_unbound _ _ Hg). cbn.
  repeat split. discriminate.
Qed.

(** ** createDataChannel *)

(** C4: on the display and on the remote controller alike,
    [createDataChannel] returns a new promise, and whatever happens next
    (calls of any method, ends of any request) that promise is pending:
    never fulfilled, never rejected. *)
Theorem createDataChannel_never_settles
    (search : string) (url : option string) (before later : list Op) (this : Ref) :
  let w := run before (loaded search url) in
  (exists p,
     result (PhysicalWebDisplay.createDataChannel this) w = Normal p
     /\ heap w !! p = None
     /\ promise_state
          (run later (after (PhysicalWebDisplay.createDataChannel this) w)) p
        = Some Pending)
  /\ (exists p,
        result (PhysicalWebRemoteController.createDataChannel this) w = Normal p
        /\ heap w !! p = None
        /\ promise_state
             (run later (after (PhysicalWebRemoteController.createDataChannel this) w)) p
           = Some Pending).
Proof.
  intros w.
  assert (Hw : wf w) by apply wf_run, wf_loaded.
  assert (Hfresh : heap w !! next_ref w = None).
  { destruct (heap w !! next_ref w) eqn:E; [|reflexivity].
    apply (proj1 Hw) in E. lia. }
  pose proof (idle_run _ later _ (fresh_pending_idle w Hw)) as (_ & Hp & _).
  split; exists (next_ref w); unfold result, after.
  - rewrite display_createDataChannel_run. cbn [fst snd].
    repeat split; [assumption|]. now apply promise_state_heap.
  - rewrite controller_createDataChannel_run. cbn [fst snd].
    repeat split; [assumption|]. now apply promise_state_heap.
Qed.

(** ** The promise of navigate *)

(** At any moment after [navigate(u)], the promise it returned is pending
    if its request has not ended, fulfilled with [undefined] if the request
    ended with a load event, and rejected with the [OperationError] made
    from the error event if the request ended with an error. *)
Lemma navigate_promise_fate search url before this u later :
  let w := run before (loaded search url) in
  result (PhysicalWebDisplay.navigate this u) w = Normal (next_ref w)
  /\ promise_state (run later (after (PhysicalWebDisplay.navigate this u) w))
                   (next_ref w)
     = Some (fate (S (next_ref w)) later).
Proof.
  intros w. split.
  - unfold result. now rewrite navigate_run.
  - apply in_flight_fate, navigate_in_flight, wf_run, wf_loaded.
Qed.

Lemma first_end_app_none x ops1 ops2 :
  first_end x ops1 = None -> first_end x (ops1 ++ ops2) = first_end x ops2.
Proof.
  induction ops1 as [|o ops1 IH]; [reflexivity|].
  destruct o; cbn; auto. destruct (Nat.eqb xhr x); [discriminate|auto].
Qed.

(** C6: when the request sent by [navigate(u)] ends with a load event,
    with any status code, the promise returned by [navigate(u)] is
    fulfilled with [undefined], and stays so; [mid] is what happens between
    the call and the answer, [later] what happens after. *)
Theorem navigate_resolves_on_load
    (search : string) (url : option string) (before mid later : list Op)
    (this : Ref) (u : string) (code : Z) (e : ProgressEvent) :
  let w := run before (loaded search url) in
  let p := next_ref w in
  let x := S (next_ref w) in
  first_end x mid = None ->
  result (PhysicalWebDisplay.navigate this u) w = Normal p
  /\ network (after (PhysicalWebDisplay.navigate this u) w)
     = network w ++ [(x, start_request u)]
  /\ promise_state
       (run (mid ++ request_ends x (load code) e :: later)
            (after (PhysicalWebDisplay.navigate this u) w)) p
     = Some (Fulfilled undefined).
Proof.
  intros w p x Hmid.
  destruct (navigate_promise_fate search url before this u
              (mid ++ request_ends x (load code) e :: later)) as [Hr Hp].
  split; [exact Hr|]. split.
  - unfold after. now rewrite navigate_run.
  - fold w in Hp. fold p in Hp. rewrite Hp. unfold fate.
    fold x. rewrite (first_end_app_none _ _ _ Hmid). cbn.
    now rewrite Nat.eqb_refl.
Qed.

Lemma navigate_resolves_on_load_witness :
  first_end 1 [call_terminate 0; call_getAvailableDisplays] = None
  /\ promise_state
       (run ([call_terminate 0; call_getAvailableDisplays]
               ++ request_ends 1 (load 500) (mkEvent "{}") :: [call_terminate 0])
            (after (PhysicalWebDisplay.navigate 0 "http://a.example/") (loaded "" None)))
       0
     = Some (Fulfilled undefined).
Proof.
  split; [reflexivity|].
  apply (navigate_resolves_on_load "" None []
           [call_terminate 0; call_getAvailableDisplays] [call_terminate 0]
           0 "http://a.example/" 500 (mkEvent "{}")).
  reflexivity.
Defined.

(** Rejection: the promise returned by [navigate(u)] is rejected exactly
    when the first end of its request is an error, and then with an error
    named [OperationError] whose message ends with the serialized error
    event. *)
Lemma navigate_rejects_iff_network_error search url before this u later :
  let w := run before (loaded search url) in
  let st := promise_state (run later (after (PhysicalWebDisplay.navigate this u) w))
                          (next_ref w) in
  ((exists err, st = Some (Rejected err))
   <-> exists e, first_end (S (next_ref w)) later = Some (error, e))
  /\ forall err, st = Some (Rejected err) ->
       err_name err = "OperationError"
       /\ exists e, first_end (S (next_ref w)) later = Some (error, e)
            /\ err_message err
               = "Unable to start Bluetooth beacon: " +:+ JSON_stringify e.
Proof.
  intros w st.
  destruct (navigate_promise_fate search url before this u later) as [_ Hp].
  fold w in Hp. fold st in Hp. rewrite Hp. unfold fate.
  destruct (first_end (S (next_ref w)) later) as [[[c|] e]|]; split.
  - split; [intros [err [=]]|intros [e' [=]]].
  - intros err [=].
  - split; [eauto|]. intros _. eauto.
  - intros err [= <-]. split; [reflexivity|]. eauto.
  - split; [intros [err [=]]|intros [e' [=]]].
  - intros err [=].
Qed.

Lemma handler_outcome_named f e err :
  handler_outcome f e = Rejected err -> err_name err = "OperationError".
Proof. destruct f; cbn; [discriminate|]. now intros [= <-]. Qed.

(** ** What lasts *)

Lemma lasting_perform o w r obj :
  bounded w -> lasting obj ->
  heap w !! r = Some obj -> heap (perform o w) !! r = Some obj.
Proof.
  intros Hb [Hx Hp] Hr. rewrite perform_old by (eapply Hb; eassumption).
  destruct o; try assumption. now apply complete_keeps.
Qed.

Lemma lasting_run ops w r obj :
  bounded w -> lasting obj ->
  heap w !! r = Some obj -> heap (run ops w) !! r = Some obj.
Proof.
  revert w. induction ops as [|o ops IH]; intros w Hb Hl Hr; [assumption|].
  rewrite run_cons. apply IH; auto using bounded_perform, lasting_perform.
Qed.

(** A promise made by an operation is pending, or it is the promise of
    [getAvailableDisplays], fulfilled with the one display made with it. *)
Lemma perform_new_promise o w r st :
  bounded w -> next_ref w <= r ->
  heap (perform o w) !! r = Some (ObjPromise st) ->
  st = Pending
  \/ (st = Fulfilled (Array [S r])
      /\ heap (perform o w) !! S r
         = Some (ObjDisplay PhysicalWebPresentationMechanism.display_name)).
Proof.
  intros Hb Hr.
  assert (Hnone : heap w !! r = None).
  { destruct (heap w !! r) eqn:E; [|reflexivity]. apply Hb in E. lia. }
  destruct o; cbn [perform]; unfold after.
  - rewrite getAvailableDisplays_run. cbn.
    rewrite lookup_insert_Some. intros [[_ [=]]|[? H]].
    apply lookup_insert_Some in H as [[<- [= <-]]|[? H]]; [|congruence].
    right. split; [reflexivity|]. apply lookup_insert_eq.
  - destruct (Z.eq_dec (Text.indexOf (location_search w) "?p") (-1)%Z) as [E|E].
    + rewrite (monitor_run_absent _ E). cbn. congruence.
    + rewrite (monitor_run_present _ E). cbn.
      rewrite lookup_insert_Some. intros [[_ [=]]|[? H]]. congruence.
  - cbn. congruence.
  - rewrite navigate_run. cbn.
    rewrite lookup_insert_Some. intros [[_ [=]]|[? H]].
    apply lookup_insert_Some in H as [[_ [= <-]]|[? H]]; [now left|congruence].
  - rewrite display_createDataChannel_run. cbn.
    rewrite lookup_insert_Some. intros [[_ [= <-]]|[? H]]; [now left|congruence].
  - rewrite controller_createDataChannel_run. cbn.
    rewrite lookup_insert_Some. intros [[_ [= <-]]|[? H]]; [now left|congruence].
  - destruct (global_url w) as [g|] eqn:E.
    + rewrite (terminate_run_bound _ _ _ E). cbn.
      rewrite lookup_insert_Some. intros [[_ [=]]|[? H]]. congruence.
    + rewrite (terminate_run_unbound _ _ E). cbn.
      rewrite lookup_insert_Some. intros [[_ [=]]|[? H]]. congruence.
  - intros H. assert (is_Some (heap w !! r)) as [? ?]; [|congruence].
    apply (complete_is_Some xhr how e). unfold after. eauto.
Qed.

(** A promise found after an operation, when it is not new: it was there
    before, with the same state, or pending and now settled by a handler. *)
Lemma perform_old_promise o w r st' :
  r < next_ref w ->
  heap (perform o w) !! r = Some (ObjPromise st') ->
  exists st, heap w !! r = Some (ObjPromise st)
    /\ (st' = st \/ (st = Pending /\ exists f e, st' = handler_outcome f e)).
Proof.
  intros Hr. rewrite perform_old by assumption. destruct o; eauto.
  intros H. apply complete_inv in H as (obj & Hobj & [<-|[(xo & _ & [=])|[-> [f [= ->]]]]]).
  - eauto.
  - exists Pending. eauto 6.
Qed.

Lemma lasting_display name : lasting (ObjDisplay name).
Proof. split; [intros xo|]; discriminate. Qed.

Lemma single_display_lists_perform o w :
  bounded w -> single_display_lists w -> single_display_lists (perform o w).
Proof.
  intros Hb Hs p ds Hp. destruct (le_lt_dec (next_ref w) p) as [Hge|Hlt].
  - destruct (perform_new_promise o w p _ Hb Hge Hp) as [[=]|[[= ->] Hd]]. eauto.
  - destruct (perform_old_promise o w p _ Hlt Hp) as (st & Hst & [<-|[-> (f & e & Hf)]]).
    + destruct (Hs _ _ Hst) as (d & -> & Hd). exists d. split; [reflexivity|].
      apply lasting_perform; auto using lasting_display.
    + destruct f; discriminate.
Qed.

Lemma single_display_lists_run ops w :
  bounded w -> single_display_lists w -> single_display_lists (run ops w).
Proof.
  revert w. induction ops as [|o ops IH]; intros w Hb Hs; [assumption|].
  rewrite run_cons.
  apply IH; auto using bounded_perform, single_display_lists_perform.
Qed.

Lemma rejections_named_perform o w :
  bounded w -> rejections_named w -> rejections_named (perform o w).
Proof.
  intros Hb Hn p err Hp. destruct (le_lt_dec (next_ref w) p) as [Hge|Hlt].
  - destruct (perform_new_promise o w p _ Hb Hge Hp) as [[=]|[[=] _]].
  - destruct (perform_old_promise o w p _ Hlt Hp) as (st & Hst & [<-|[-> (f & e & Hf)]]).
    + eauto.
    + symmetry in Hf. eauto using handler_outcome_named.
Qed.

(** On every page the module can reach by calls with well-formed strings,
    whatever promise is rejected is rejected with an [OperationError]. *)
Lemma rejections_named_reachable w : reachable w -> rejections_named w.
Proof.
  intros (search & url & ops & ->).
  assert (H : forall w, bounded w -> rejections_named w -> rejections_named (run ops w)).
  { induction ops as [|o ops IH]; intros w Hb Hn; [assumption|].
    rewrite run_cons.
    apply IH; auto using bounded_perform, rejections_named_perform. }
  apply H; [apply wf_loaded|].
  intros p err. cbn. now rewrite lookup_empty.
Qed.

(** ** getAvailableDisplays *)

(** C7: on every page the module can reach, [getAvailableDisplays]
    returns a new promise that is fulfilled, at once and for ever, with a
    list of exactly one display; the display is new as well and bears the
    fixed name, which is not empty. *)
Theorem getAvailableDisplays_resolves
    (search : string) (url : option string) (before later : list Op) :
  let w := run before (loaded search url) in
  let w1 := after PhysicalWebPresentationMechanism.getAvailableDisplays w in
  exists p d,
    result PhysicalWebPresentationMechanism.getAvailableDisplays w = Normal p
    /\ heap w !! p = None
    /\ heap w !! d = None
    /\ promise_state (run later w1) p = Some (Fulfilled (Array [d]))
    /\ heap (run later w1) !! d
       = Some (ObjDisplay "Broadcast the URL through a Physical Web beacon")
    /\ "Broadcast the URL through a Physical Web beacon" <> "".
Proof.
  intros w w1.
  assert (Hw : wf w) by apply wf_run, wf_loaded.
  assert (Hfresh : forall r, next_ref w <= r -> heap w !! r = None).
  { intros r Hr. destruct (heap w !! r) eqn:E; [|reflexivity].
    apply (proj1 Hw) in E. lia. }
  assert (Hb1 : bounded w1).
  { apply (bounded_perform call_getAvailableDisplays), Hw. }
  exists (next_ref w), (S (next_ref w)).
  split; [unfold result; now rewrite getAvailableDisplays_run|].
  split; [apply Hfresh; lia|]. split; [apply Hfresh; lia|].
  split; [|split; [|discriminate]].
  - apply promise_state_heap, lasting_run; auto.
    + split; [intros xo|]; discriminate.
    + unfold w1, after. rewrite getAvailableDisplays_run. cbn.
      rewrite lookup_insert_ne by lia. apply lookup_insert_eq.
  - apply lasting_run; auto using lasting_display.
    unfold w1, after. rewrite getAvailableDisplays_run. cbn.
    apply lookup_insert_eq.
Qed.

(** C8: on every page the module can reach, whatever the operations that
    led to it, every list of displays that was advertised has exactly one
    display, never more, and that display bears the fixed name: the
    advertised list is a fixed single-element list. *)
Theorem advertised_lists_are_single
    (search : string) (url : option string) (ops : list Op)
    (p : Ref) (ds : list Ref) :
  let w := run ops (loaded search url) in
  promise_state w p = Some (Fulfilled (Array ds)) ->
  exists d, ds = [d]
    /\ heap w !! d
       = Some (ObjDisplay "Broadcast the URL through a Physical Web beacon").
Proof.
  intros w Hp.
  assert (Hs : single_display_lists w).
  { apply single_display_lists_run; [apply wf_loaded|].
    intros q l. cbn. now rewrite lookup_empty. }
  apply (Hs p). unfold promise_state in Hp.
  destruct (heap w !! p) as [[]|]; congruence.
Qed.

Lemma advertised_lists_are_single_witness :
  promise_state (run [call_navigate 0 "http://a.example/"; call_getAvailableDisplays]
                     (loaded "" None)) 2
  = Some (Fulfilled (Array [3]))
  /\ exists d, [3] = [d]
       /\ heap (run [call_navigate 0 "http://a.example/"; call_getAvailableDisplays]
                    (loaded "" None)) !! d
          = Some (ObjDisplay "Broadcast the URL through a Physical Web beacon").
Proof.
  split; [reflexivity|].
  apply (advertised_lists_are_single "" None
           [call_navigate 0 "http://a.example/"; call_getAvailableDisplays] 2 [3]).
  reflexivity.
Defined.

(** ** monitorIncomingControllers *)

Lemma fresh_next_ref w : bounded w -> heap w !! next_ref w = None.
Proof.
  intros Hb. destruct (heap w !! next_ref w) eqn:E; [|reflexivity].
  apply Hb in E. lia.
Qed.

(** C2 as amended: with a callback installed, [monitorIncomingControllers]
    calls it exactly when the query string of the page contains [?p], and
    then once, with a controller made for the call; when the query string
    does not contain [?p] the method calls nothing, makes nothing and sends
    nothing. *)
Theorem monitor_calls_back_iff_question_p
    (search : string) (url : option string) (before : list Op) (f : Callback) :
  let w := run before (loaded search url) in
  let w' := after PhysicalWebPresentationMechanism.monitorIncomingControllers w in
  onincomingcontroller w = Some f ->
  result PhysicalWebPresentationMechanism.monitorIncomingControllers w = Normal tt
  /\ ((Text.occurs "?p" search
       /\ exists c, heap w !! c = None
            /\ heap w' !! c = Some ObjRemoteController
            /\ incoming w' = incoming w ++ [(f, c)])
      \/ (~ Text.occurs "?p" search
          /\ incoming w' = incoming w
          /\ heap w' = heap w
          /\ network w' = network w)).
Proof.
  intros w w' Hf.
  assert (Hs : location_search w = search).
  { now destruct (environment_run before (loaded search url)) as [H _]. }
  assert (Hb : bounded w) by apply wf_run, wf_loaded.
  unfold w', result, after.
  destruct (Z.eq_dec (Text.indexOf (location_search w) "?p") (-1)%Z) as [E|E].
  - rewrite (monitor_run_absent _ E). cbn. split; [reflexivity|]. right.
    apply indexOf_none in E. rewrite Hs in E. auto.
  - rewrite (monitor_run_present _ E). cbn. split; [reflexivity|]. left.
    rewrite indexOf_none, Hs in E. split.
    + destruct (proj1 (contains_occurs "?p" search)) as (a & b & H);
        [|now exists a, b].
      destruct (Text.contains "?p" search) eqn:Ec; [reflexivity|].
      exfalso. apply E. intros H. apply contains_occurs in H. congruence.
    + exists (next_ref w). rewrite Hf.
      repeat split; [now apply fresh_next_ref|apply lookup_insert_eq].
Qed.

Lemma monitor_calls_back_iff_question_p_witness :
  onincomingcontroller
    (run [set_onincomingcontroller (Some 5)] (loaded "?x=1?p" None)) = Some 5
  /\ result PhysicalWebPresentationMechanism.monitorIncomingControllers
       (run [set_onincomingcontroller (Some 5)] (loaded "?x=1?p" None))
     = Normal tt.
Proof.
  split; [reflexivity|].
  apply (monitor_calls_back_iff_question_p "?x=1?p" None
           [set_onincomingcontroller (Some 5)] 5).
  reflexivity.
Defined.

(** With the query string [?p] the callback is called exactly once, with
    the query string [?x=1] not at all. *)
Example monitor_on_p :
  incoming (after PhysicalWebPresentationMechanism.monitorIncomingControllers
                  (run [set_onincomingcontroller (Some 5)] (loaded "?p" None)))
  = [(5, 0)].
Proof. reflexivity. Qed.

Example monitor_on_x1 :
  incoming (after PhysicalWebPresentationMechanism.monitorIncomingControllers
                  (run [set_onincomingcontroller (Some 5)] (loaded "?x=1" None)))
  = [].
Proof. reflexivity. Qed.

(** C2 as stated fails: the query string [?x=1&p] has the parameter [p],
    after an ampersand, and the callback is not called. *)
Lemma monitor_misses_ampersand_p :
  let w := run [set_onincomingcontroller (Some 5)] (loaded "?x=1&p" None) in
  ~ (calls_back w <-> spec_marker (location_search w)).
Proof.
  intros w [_ H].
  assert (Hm : spec_marker (location_search w)).
  { right. now exists "?x=1", "". }
  destruct (H Hm) as (f & c & Hc). vm_compute in Hc.
  destruct (incoming w); discriminate.
Qed.

(** C9: a page whose query string starts with [?p], whatever follows
    ([?page=2], [?photo=1], ...), is taken for a receiving context:
    [indexOf] finds [?p], the method makes a controller and calls the
    installed callback with it. *)
Theorem monitor_accepts_any_parameter_in_p
    (rest : string) (url : option string) (before : list Op) (f : Callback) :
  let w := run before (loaded ("?p" +:+ rest) url) in
  let w' := after PhysicalWebPresentationMechanism.monitorIncomingControllers w in
  onincomingcontroller w = Some f ->
  Text.indexOf (location_search w) "?p" = 0%Z
  /\ exists c, heap w !! c = None
       /\ heap w' !! c = Some ObjRemoteController
       /\ incoming w' = incoming w ++ [(f, c)]
       /\ console w'
          = console w ++ ["running in a receiving context created by Physical Web"].
Proof.
  intros w w' Hf.
  assert (Hs : location_search w = "?p" +:+ rest).
  { now destruct (environment_run before (loaded ("?p" +:+ rest) url)) as [H _]. }
  assert (Hb : bounded w) by apply wf_run, wf_loaded.
  assert (E : Text.indexOf (location_search w) "?p" = 0%Z).
  { rewrite Hs. apply indexOf_prefix. }
  split; [exact E|].
  unfold w', after. rewrite monitor_run_present by (rewrite E; discriminate).
  cbn. rewrite Hf. exists (next_ref w).
  repeat split; [now apply fresh_next_ref|apply lookup_insert_eq].
Qed.

Lemma monitor_accepts_any_parameter_in_p_witness :
  onincomingcontroller
    (run [set_onincomingcontroller (Some 5)] (loaded ("?p" +:+ "age=2") None)) = Some 5
  /\ Text.indexOf "?page=2" "?p" = 0%Z
  /\ incoming (after PhysicalWebPresentationMechanism.monitorIncomingControllers
                 (run [set_onincomingcontroller (Some 5)] (loaded "?page=2" None)))
     = [(5, 0)].
Proof.
  split; [reflexivity|].
  destruct (monitor_accepts_any_parameter_in_p "age=2" None
              [set_onincomingcontroller (Some 5)] 5 eq_refl)
    as (H0 & c & _ & _ & Hi & _).
  split; [exact H0|reflexivity].
Defined.

(** * Further properties *)

(** ** terminate, when the page has a global variable [url] *)

Lemma terminate_sends_global_url_witness :
  global_url (run [call_navigate 0 "http://a.example/"] (loaded "" (Some "http://b.example/")))
  = Some "http://b.example/"
  /\ exists x req,
       network (after (PhysicalWebDisplay.terminate 0)
                  (run [call_navigate 0 "http://a.example/"]
                       (loaded "" (Some "http://b.example/"))))
       = network (run [call_navigate 0 "http://a.example/"]
                      (loaded "" (Some "http://b.example/"))) ++ [(x, req)]
       /\ Form.parse (req_body req)
          = [("action", "stop"); ("url", "http://b.example/" +:+ "?p")].
Proof.
  split; [reflexivity|].
  apply (terminate_sends_global_url 0
           (run [call_navigate 0 "http://a.example/"]
                (loaded "" (Some "http://b.example/")))
           "http://b.example/").
  reflexivity.
Defined.

(** The stop request has no handlers: when it ends, well or badly, no
    promise changes, nothing is sent, nothing is written and nothing is
    called. *)
Theorem stop_request_outcome_is_dropped
    (w : World) (this : Ref) (g : string) (how : Outcome) (e : ProgressEvent) :
  global_url w = Some g ->
  let w1 := after (PhysicalWebDisplay.terminate this) w in
  let w2 := perform (request_ends (next_ref w) how e) w1 in
  network w1 = network w ++ [(next_ref w, stop_request g)]
  /\ (forall p, promise_state w2 p = promise_state w1 p)
  /\ network w2 = network w1
  /\ console w2 = console w1
  /\ incoming w2 = incoming w1.
Proof.
  intros Hg w1 w2. unfold w2, w1. cbn [perform]. unfold after.
  rewrite (terminate_run_bound _ _ _ Hg). rewrite complete_run. cbn.
  rewrite lookup_insert_eq. cbn.
  split; [reflexivity|]. split; [|auto].
  intros p. unfold promise_state. cbn.
  assert (Hh : handler_for how bare_xhr = None) by now destruct how.
  rewrite Hh. cbn [after_handler].
  destruct (decide (p = next_ref w)) as [->|Hne].
  - now rewrite !lookup_insert_eq.
  - now rewrite !lookup_insert_ne by congruence.
Qed.

Lemma stop_request_outcome_is_dropped_witness :
  global_url (run [call_navigate 0 "http://a.example/"] (loaded "" (Some "u"))) = Some "u"
  /\ forall p,
       promise_state
         (perform (request_ends 2 error (mkEvent "{}"))
            (after (PhysicalWebDisplay.terminate 0)
               (run [call_navigate 0 "http://a.example/"] (loaded "" (Some "u"))))) p
       = promise_state
           (after (PhysicalWebDisplay.terminate 0)
              (run [call_navigate 0 "http://a.example/"] (loaded "" (Some "u")))) p.
Proof.
  split; [reflexivity|].
  apply (stop_request_outcome_is_dropped
           (run [call_navigate 0 "http://a.example/"] (loaded "" (Some "u")))
           0 "u" error (mkEvent "{}")).
  reflexivity.
Defined.

(** ** The promise of navigate, continued *)

(** When the request sent by [navigate(u)] ends with an error, the promise
    returned by [navigate(u)] is rejected with the [OperationError] made
    from the error event, and stays so, whatever happens in between and
    afterwards, a later load event on the same request included. *)
Theorem navigate_rejects_on_error
    (search : string) (url : option string) (before mid later : list Op)
    (this : Ref) (u : string) (e : ProgressEvent) :
  let w := run before (loaded search url) in
  let p := next_ref w in
  let x := S (next_ref w) in
  first_end x mid = None ->
  promise_state
    (run (mid ++ request_ends x error e :: later)
         (after (PhysicalWebDisplay.navigate this u) w)) p
  = Some (Rejected
            (mkError "OperationError"
                     ("Unable to start Bluetooth beacon: " +:+ JSON_stringify e))).
Proof.
  intros w p x Hmid.
  destruct (navigate_promise_fate search url before this u
              (mid ++ request_ends x error e :: later)) as [_ Hp].
  fold w in Hp. fold p in Hp. rewrite Hp. unfold fate.
  fold x. rewrite (first_end_app_none _ _ _ Hmid). cbn.
  now rewrite Nat.eqb_refl.
Qed.

Lemma navigate_rejects_on_error_witness :
  first_end 1 [call_navigate 0 "http://b.example/"] = None
  /\ promise_state
       (run ([call_navigate 0 "http://b.example/"]
               ++ request_ends 1 error (mkEvent "{}")
               :: [request_ends 1 (load 200) (mkEvent "{}")])
            (after (PhysicalWebDisplay.navigate 0 "http://a.example/") (loaded "" None)))
       0
     = Some (Rejected
               (mkError "OperationError"
                        ("Unable to start Bluetooth beacon: " +:+ "{}"))).
Proof.
  split; [reflexivity|].
  apply (navigate_rejects_on_error "" None [] [call_navigate 0 "http://b.example/"]
           [request_ends 1 (load 200) (mkEvent "{}")]
           0 "http://a.example/" (mkEvent "{}")).
  reflexivity.
Defined.

(** As long as the request sent by [navigate(u)] has not ended, the
    promise returned by [navigate(u)] is pending: no other call, [terminate]
    included, and no end of another request settles it. *)
Theorem navigate_pending_until_end
    (search : string) (url : option string) (before later : list Op)
    (this : Ref) (u : string) :
  let w := run before (loaded search url) in
  first_end (S (next_ref w)) later = None ->
  promise_state (run later (after (PhysicalWebDisplay.navigate this u) w))
                (next_ref w)
  = Some Pending.
Proof.
  intros w Hlater.
  destruct (navigate_promise_fate search url before this u later) as [_ Hp].
  fold w in Hp. rewrite Hp. unfold fate. now rewrite Hlater.
Qed.

Lemma navigate_pending_until_end_witness :
  first_end 1 [call_terminate 0; call_navigate 0 "http://b.example/";
               request_ends 3 error (mkEvent "{}")] = None
  /\ promise_state
       (run [call_terminate 0; call_navigate 0 "http://b.example/";
             request_ends 3 error (mkEvent "{}")]
            (after (PhysicalWebDisplay.navigate 0 "http://a.example/")
                   (loaded "" (Some "g"))))
       0
     = Some Pending.
Proof.
  split; [reflexivity|].
  apply (navigate_pending_until_end "" (Some "g") [] _ 0 "http://a.example/").
  reflexivity.
Defined.

(** Two calls of [navigate], one after the other: two promises and two
    requests, and each promise follows the first end of its own request
    only. *)
Theorem overlapping_navigates_are_independent
    (search : string) (url : option string) (before later : list Op)
    (d1 d2 : Ref) (u1 u2 : string) :
  let w := run before (loaded search url) in
  let w1 := after (PhysicalWebDisplay.navigate d1 u1) w in
  let w2 := after (PhysicalWebDisplay.navigate d2 u2) w1 in
  let p1 := next_ref w in
  let p2 := next_ref w1 in
  result (PhysicalWebDisplay.navigate d1 u1) w = Normal p1
  /\ result (PhysicalWebDisplay.navigate d2 u2) w1 = Normal p2
  /\ p1 <> p2
  /\ network w2 = network w ++ [(S p1, start_request u1); (S p2, start_request u2)]
  /\ promise_state (run later w2) p1 = Some (fate (S p1) later)
  /\ promise_state (run later w2) p2 = Some (fate (S p2) later).
Proof.
  intros w w1 w2 p1 p2.
  destruct (navigate_promise_fate search url before d1 u1
              (call_navigate d2 u2 :: later)) as [Hr1 Hp1].
  destruct (navigate_promise_fate search url (before ++ [call_navigate d1 u1])
              d2 u2 later) as [Hr2 Hp2].
  rewrite run_app in Hr2, Hp2. cbn [run fold_left perform] in Hr2, Hp2.
  fold w in Hr1, Hp1, Hr2, Hp2. fold w1 in Hr2, Hp2.
  split; [exact Hr1|]. split; [exact Hr2|]. split; [|split; [|split]].
  - unfold p2, p1, w1, after. rewrite navigate_run. cbn. lia.
  - unfold p2, p1, w2, w1, after. rewrite !navigate_run. cbn.
    rewrite <- List.app_assoc. reflexivity.
  - rewrite run_cons in Hp1. cbn [perform] in Hp1. fold w1 in Hp1.
    exact Hp1.
  - exact Hp2.
Qed.

(** ** The errors that promises are rejected with *)

Lemma navigate_any_well_formed this u w :
  navigate_any this (well_formed u) w = PhysicalWebDisplay.navigate this u w.
Proof. reflexivity. Qed.






Lemma rejections_known_weaken ill w :
  rejections_known false w -> rejections_known ill w.
Proof.
  intros H p err Hp. destruct (H p err Hp) as [?|[[=] _]]. now left.
Qed.




Example navigate_with_an_unpaired_surrogate :
  let w := after (navigate_any 0 ill_formed) (loaded "" None) in
  result (navigate_any 0 ill_formed) (loaded "" None) = Normal 0
  /\ promise_state w 0 = Some (Rejected (mkError "URIError" "URI malformed"))
  /\ network w = [].
Proof. repeat split. Qed.

(** ** The traffic of a run *)

(** The requests of a whole run, in order: one start request for each call
    of [navigate], with the URL of that call, one stop request for each
    call of [terminate] when the page has a global variable [url], and
    nothing else; no other method and no handler sends anything. *)
Theorem run_network (search : string) (url : option string) (ops : list Op) :
  map snd (network (run ops (loaded search url))) = flat_map (sent_by url) ops.
Proof.
  enough (H : forall w, map snd (network (run ops w))
                        = map snd (network w)
                          ++ flat_map (sent_by (global_url w)) ops)
    by now rewrite H.
  induction ops as [|o ops IH]; intros w.
  - cbn. now rewrite List.app_nil_r.
  - rewrite run_cons, IH, network_perform.
    destruct (environment_perform o w) as [_ ->].
    rewrite List.map_app, <- List.app_assoc. f_equal.
    cbn [flat_map]. f_equal.
    destruct o; try reflexivity. cbn. now destruct (global_url w).
Qed.

(** Two calls of [navigate] that send the same request were given the
    same URL: the body tells the URLs apart, whatever characters they
    hold. *)
Lemma length_append (a b : string) :
  String.length (a +:+ b) = String.length a + String.length b.
Proof.
  induction a as [|c a IH]; [reflexivity|].
  rewrite append_cons. cbn [String.length]. now rewrite IH.
Qed.

Lemma append_inv_tail (a b t : string) : a +:+ t = b +:+ t -> a = b.
Proof.
  revert b. induction a as [|c a IH]; intros [|d b] H.
  - reflexivity.
  - apply (f_equal String.length) in H.
    rewrite !length_append in H. cbn [String.length] in H. lia.
  - apply (f_equal String.length) in H.
    rewrite !length_append in H. cbn [String.length] in H. lia.
  - rewrite !append_cons in H. inversion H. f_equal. now apply IH.
Qed.

Theorem navigate_request_identifies_url
    (w1 w2 : World) (d1 d2 : Ref) (u1 u2 : string) (x1 x2 : Ref) (req : Request) :
  network (after (PhysicalWebDisplay.navigate d1 u1) w1) = network w1 ++ [(x1, req)] ->
  network (after (PhysicalWebDisplay.navigate d2 u2) w2) = network w2 ++ [(x2, req)] ->
  u1 = u2.
Proof.
  unfold after. rewrite !navigate_run. cbn [snd network].
  intros H1 H2.
  apply List.app_inj_tail in H1 as [_ H1].
  apply List.app_inj_tail in H2 as [_ H2].
  apply (f_equal (fun xr => Form.parse (req_body (snd xr)))) in H1, H2.
  cbn [snd req_body start_request] in H1, H2.
  rewrite parse_start in H1, H2. rewrite <- H2 in H1.
  inversion H1 as [H]. now apply append_inv_tail in H.
Qed.

Lemma navigate_request_identifies_url_witness :
  network (after (PhysicalWebDisplay.navigate 0 "http://a.example/?x=1&y") (loaded "" None))
  = network (loaded "" None) ++ [(1, start_request "http://a.example/?x=1&y")]
  /\ "http://a.example/?x=1&y" = "http://a.example/?x=1&y".
Proof.
  split; [reflexivity|].
  apply (navigate_request_identifies_url (loaded "" None) (loaded "?p" None) 0 4
           "http://a.example/?x=1&y" "http://a.example/?x=1&y" 1 1
           (start_request "http://a.example/?x=1&y"));
    reflexivity.
Defined.

(** ** monitorIncomingControllers, continued *)

(** With no callback installed, [monitorIncomingControllers] returns
    normally on every page the module can reach and calls nothing, sends
    nothing and settles nothing; in a receiving context it still makes a
    controller, which nobody gets. *)
Theorem monitor_without_callback
    (search : string) (url : option string) (before : list Op) :
  let w := run before (loaded search url) in
  let w' := after PhysicalWebPresentationMechanism.monitorIncomingControllers w in
  onincomingcontroller w = None ->
  result PhysicalWebPresentationMechanism.monitorIncomingControllers w = Normal tt
  /\ incoming w' = incoming w
  /\ network w' = network w
  /\ (forall p, p < next_ref w -> heap w' !! p = heap w !! p)
  /\ (Text.occurs "?p" search ->
      heap w !! next_ref w = None
      /\ heap w' !! next_ref w = Some ObjRemoteController
      /\ next_ref w' = S (next_ref w))
  /\ (~ Text.occurs "?p" search -> heap w' = heap w).
Proof.
  intros w w' Hcb.
  assert (Hs : location_search w = search).
  { now destruct (environment_run before (loaded search url)) as [H _]. }
  assert (Hb : bounded w) by apply wf_run, wf_loaded.
  unfold w', result, after.
  destruct (Z.eq_dec (Text.indexOf (location_search w) "?p") (-1)%Z) as [E|E].
  - rewrite (monitor_run_absent _ E). cbn.
    apply indexOf_none in E. rewrite Hs in E.
    split; [reflexivity|]. split; [reflexivity|]. split; [reflexivity|].
    split; [reflexivity|]. split; [contradiction|reflexivity].
  - rewrite (monitor_run_present _ E). cbn. rewrite Hcb.
    split; [reflexivity|]. split; [reflexivity|]. split; [reflexivity|].
    split; [|split].
    + intros p Hp. now rewrite lookup_insert_ne by lia.
    + intros _. split; [now apply fresh_next_ref|].
      split; [apply lookup_insert_eq|reflexivity].
    + intros Hn. rewrite <- Hs in Hn. apply indexOf_none in Hn. contradiction.
Qed.

Lemma monitor_without_callback_witness :
  onincomingcontroller (run [call_getAvailableDisplays] (loaded "?p" None)) = None
  /\ result PhysicalWebPresentationMechanism.monitorIncomingControllers
       (run [call_getAvailableDisplays] (loaded "?p" None))
     = Normal tt.
Proof.
  split; [reflexivity|].
  apply (monitor_without_callback "?p" None [call_getAvailableDisplays]).
  reflexivity.
Defined.

(** One operation calls the callback at most once, and then with the
    controller it has just made. *)
Lemma incoming_perform o w :
  incoming (perform o w) = incoming w
  \/ exists f,
       incoming (perform o w) = incoming w ++ [(f, next_ref w)]
       /\ next_ref (perform o w) = S (next_ref w)
       /\ heap (perform o w) !! next_ref w = Some ObjRemoteController.
Proof.
  destruct o; cbn [perform]; unfold after.
  - rewrite getAvailableDisplays_run. now left.
  - destruct (Z.eq_dec (Text.indexOf (location_search w) "?p") (-1)%Z) as [E|E].
    + rewrite (monitor_run_absent _ E). now left.
    + rewrite (monitor_run_present _ E). cbn.
      destruct (onincomingcontroller w) as [f|]; [right|now left].
      exists f. split; [reflexivity|]. split; [reflexivity|].
      apply lookup_insert_eq.
  - now left.
  - rewrite navigate_run. now left.
  - rewrite display_createDataChannel_run. now left.
  - rewrite controller_createDataChannel_run. now left.
  - destruct (global_url w) as [g|] eqn:E.
    + rewrite (terminate_run_bound _ _ _ E). now left.
    + rewrite (terminate_run_unbound _ _ E). now left.
  - rewrite complete_run. left.
    destruct (heap w !! xhr) as [[| xo | |]|]; auto.
    destruct (readyState xo); auto.
Qed.

Lemma lasting_controller : lasting ObjRemoteController.
Proof. split; [intros xo|]; discriminate. Qed.

Lemma controllers_perform o w :
  bounded w ->
  controllers_distinct w
  /\ (forall f c, In (f, c) (incoming w) -> heap w !! c = Some ObjRemoteController) ->
  controllers_distinct (perform o w)
  /\ (forall f c, In (f, c) (incoming (perform o w)) ->
        heap (perform o w) !! c = Some ObjRemoteController).
Proof.
  intros Hb [[Hlt Hnd] Hobj]. pose proof (next_ref_perform o w) as Hmono.
  unfold controllers_distinct.
  destruct (incoming_perform o w) as [->|(f & -> & Hn & Hc)].
  - split; [split|].
    + intros c Hc. apply Hlt in Hc. lia.
    + assumption.
    + intros f c Hin. apply lasting_perform; auto using lasting_controller.
      eauto.
  - split; [split|].
    + intros c. rewrite List.map_app, List.in_app_iff. cbn.
      intros [Hin|[<-|[]]]; [apply Hlt in Hin|]; lia.
    + rewrite List.map_app. apply List.NoDup_app; [assumption| |].
      * cbn. constructor; [intros []|constructor].
      * intros c Hin. cbn. intros [<-|[]]. apply Hlt in Hin. lia.
    + intros f' c. rewrite List.in_app_iff. cbn.
      intros [Hin|[[= _ <-]|[]]]; [|assumption].
      apply lasting_perform; auto using lasting_controller. eauto.
Qed.

(** On every page the module can reach, each controller that the callback
    was called with is a [PhysicalWebRemoteController] made by the module,
    and no two calls got the same one: however often
    [monitorIncomingControllers] is called, every call of the callback comes
    with a controller of its own. *)
Theorem callback_controllers_are_new
    (search : string) (url : option string) (ops : list Op) :
  let w := run ops (loaded search url) in
  List.NoDup (map snd (incoming w))
  /\ forall f c, In (f, c) (incoming w) -> heap w !! c = Some ObjRemoteController.
Proof.
  intros w.
  assert (H : forall w0, bounded w0 ->
            controllers_distinct w0
            /\ (forall f c, In (f, c) (incoming w0) ->
                  heap w0 !! c = Some ObjRemoteController) ->
            controllers_distinct (run ops w0)
            /\ (forall f c, In (f, c) (incoming (run ops w0)) ->
                  heap (run ops w0) !! c = Some ObjRemoteController)).
  { induction ops as [|o ops IH]; intros w0 Hb Hc; [assumption|].
    rewrite run_cons. apply IH; [now apply bounded_perform|].
    now apply controllers_perform. }
  destruct (H (loaded search url)) as [[_ Hnd] Hobj].
  - apply wf_loaded.
  - split; [split|].
    + intros c [].
    + constructor.
    + intros f c [].
  - split; assumption.
Qed.

Example monitor_twice :
  incoming (run [set_onincomingcontroller (Some 5);
                 call_monitorIncomingControllers;
                 call_monitorIncomingControllers] (loaded "?p" None))
  = [(5, 0); (5, 1)].
Proof. reflexivity. Qed.

(** ** getAvailableDisplays, continued *)

Lemma lists_own_display_perform o w :
  bounded w -> lists_own_display w -> lists_own_display (perform o w).
Proof.
  intros Hb Hs p ds Hp. destruct (le_lt_dec (next_ref w) p) as [Hge|Hlt].
  - now destruct (perform_new_promise o w p _ Hb Hge Hp) as [[=]|[[= ->] _]].
  - destruct (perform_old_promise o w p _ Hlt Hp)
      as (st & Hst & [<-|[-> (f & e & Hf)]]).
    + eauto.
    + destruct f; discriminate.
Qed.

Lemma lists_own_display_run ops w :
  bounded w -> lists_own_display w -> lists_own_display (run ops w).
Proof.
  revert w. induction ops as [|o ops IH]; intros w Hb Hs; [assumption|].
  rewrite run_cons.
  apply IH; auto using bounded_perform, lists_own_display_perform.
Qed.

(** On every page the module can reach, two different promises of
    [getAvailableDisplays] hold two different displays: no display is
    advertised by two calls. *)
Theorem calls_advertise_different_displays
    (search : string) (url : option string) (ops : list Op)
    (p1 p2 d1 d2 : Ref) :
  let w := run ops (loaded search url) in
  promise_state w p1 = Some (Fulfilled (Array [d1])) ->
  promise_state w p2 = Some (Fulfilled (Array [d2])) ->
  p1 <> p2 ->
  d1 <> d2.
Proof.
  intros w H1 H2 Hne.
  assert (Hs : lists_own_display w).
  { apply lists_own_display_run; [apply wf_loaded|].
    intros q l. cbn. now rewrite lookup_empty. }
  assert (Hheap : forall p d, promise_state w p = Some (Fulfilled (Array [d])) ->
            heap w !! p = Some (ObjPromise (Fulfilled (Array [d])))).
  { intros p d. unfold promise_state.
    destruct (heap w !! p) as [[]|]; congruence. }
  apply Hheap, Hs in H1. apply Hheap, Hs in H2.
  inversion H1. inversion H2. lia.
Qed.

Lemma calls_advertise_different_displays_witness :
  promise_state (run [call_getAvailableDisplays; call_getAvailableDisplays]
                     (loaded "" None)) 0
  = Some (Fulfilled (Array [1]))
  /\ promise_state (run [call_getAvailableDisplays; call_getAvailableDisplays]
                        (loaded "" None)) 2
     = Some (Fulfilled (Array [3]))
  /\ 0 <> 2
  /\ 1 <> 3.
Proof.
  split; [reflexivity|]. split; [reflexivity|]. split; [discriminate|].
  apply (calls_advertise_different_displays "" None
           [call_getAvailableDisplays; call_getAvailableDisplays] 0 2 1 3);
    [reflexivity|reflexivity|discriminate].
Defined.
